(** * Credential pool state layer: cooldown registry, signature cache, token store

    A shallow embedding of three JavaScript modules and the properties
    established about them:

    - [TokenCooldownManager] (src/auth/token_cooldown_manager.js),
    - [SignatureCache] (the file-backed signature cache),
    - [TokenStore] (the accounts.json repository).

    Conventions of the embedding.
    - JS strings are [string]s; the identifiers handled here are ASCII, and
      [toLowerCase] folds the ASCII letters only.
    - Timestamps (epoch milliseconds) are integers in [Z]; [Date.now()] is an
      explicit argument [now].
    - A JS [Map] is a [gmap string _]; so is a plain object used as a
      dictionary, which stands for the object's own properties: an
      assignment under the key [__proto__] adds none ([ownKey]).
    - File-system calls take their outcome from an explicit argument, so that
      every I/O failure the code can meet is a value of the model. *)

From Stdlib Require Import ZArith Ascii String List Bool Lia.
From stdpp Require Import base option list gmap strings fin_maps.

Local Open Scope string_scope.
Local Open Scope Z_scope.

(** ** JavaScript string primitives *)

Module JsString.

(** Truthiness of a string: every string but the empty one. *)
Definition truthy (s : string) : bool :=
  match s with
  | EmptyString => false
  | String _ _ => true
  end.

Definition lower_char (c : ascii) : ascii :=
  let n := N_of_ascii c in
  if ((65 <=? n) && (n <=? 90))%N then ascii_of_N (n + 32) else c.

(** [String.prototype.toLowerCase] on ASCII identifiers. *)
Fixpoint toLowerCase (s : string) : string :=
  match s with
  | EmptyString => EmptyString
  | String c s' => String (lower_char c) (toLowerCase s')
  end.

(** [s.startsWith(p)]. *)
Fixpoint startsWith (p s : string) : bool :=
  match p, s with
  | EmptyString, _ => true
  | String _ _, EmptyString => false
  | String a p', String b s' => if Ascii.eqb a b then startsWith p' s' else false
  end.

(** [s.includes(needle)]: the needle starts at some position of [s]. *)
Fixpoint includes (s needle : string) : bool :=
  startsWith needle s ||
  match s with
  | EmptyString => false
  | String _ s' => includes s' needle
  end.

(** [s.endsWith(p)]: some suffix of [s] is [p]. *)
Fixpoint endsWith (s p : string) : bool :=
  String.eqb s p ||
  match s with
  | EmptyString => false
  | String _ s' => endsWith s' p
  end.

(** [s] without its last [n] characters; with [endsWith] this gives
    [s.replace(/p$/, '')] for a pattern [p] of [n] characters. *)
Definition dropRight (n : nat) (s : string) : string :=
  String.substring 0 (String.length s - n) s.

End JsString.

(** ** Cooldown registry *)

Module TokenCooldownManager.
Import JsString.

(** [groups[groupKey]] is [null] ([None]) or [{ until }] ([Some until]). *)
Abbreviation groupMap := (gmap string (option Z)).

(** The manager: the in-memory [cooldowns] map and the [cooldowns] object
    of the document last written to [filePath]. *)
Record manager := Manager {
  cooldowns : gmap string groupMap;
  persisted : gmap string groupMap
}.

Definition getGroupKey (modelId : string) : string :=
  if negb (truthy modelId) then "other" else
  let lower := toLowerCase modelId in
  if includes lower "claude" then "claude"
  else if includes lower "gemini-3-pro-image" then "banana"
  else if includes lower "gemini" || includes lower "publishers/google/" then "gemini"
  else "other".

(** [data && data.until && data.until > Date.now()]. *)
Definition stillCooling (now : Z) (data : option Z) : bool :=
  match data with
  | Some until => negb (until =? 0) && (now <? until)
  | None => false
  end.

(** [saveToFile] and [getAllCooldowns] collect into plain objects created
    by [{}]. On such an object an assignment [obj[key] = value] under the
    key [__proto__] runs the inherited setter, which replaces the prototype
    and adds no property of the object's own; every other key becomes an
    own property, the only kind [JSON.stringify] and [Object.keys] see. *)
Definition ownKey (key : string) : bool := negb (String.eqb key "__proto__").

(** The object [validGroups] of [saveToFile] once its loop over
    [Object.entries(groups)] has run: [validGroups[group] = data] for each
    entry still cooling. *)
Definition validGroups (now : Z) (g : groupMap) : groupMap :=
  filter (λ kv, ownKey kv.1 = true ∧ stillCooling now kv.2 = true) g.

(** The flag [hasValid] of the same loop: set by every entry still cooling,
    whatever its key. *)
Definition hasValid (now : Z) (g : groupMap) : bool :=
  bool_decide (map_Exists (λ _ data, stillCooling now data = true) g).

(** The [cooldowns] object [saveToFile] builds:
    [if (hasValid) cooldownsObj[tokenId] = validGroups]. *)
Definition cooldownsObj (now : Z) (cds : gmap string groupMap) : gmap string groupMap :=
  map_imap (λ tokenId g,
              if ownKey tokenId && hasValid now g
              then Some (validGroups now g) else None) cds.

(** [saveToFile]: a failed write is logged and swallowed. *)
Definition saveToFile (now : Z) (write_ok : bool) (m : manager) : manager :=
  if write_ok
  then {| cooldowns := cooldowns m; persisted := cooldownsObj now (cooldowns m) |}
  else m.

Definition setCooldown (now : Z) (write_ok : bool)
    (tokenId modelId : string) (untilTimestamp : Z) (m : manager) : manager :=
  if negb (truthy tokenId) || (untilTimestamp =? 0) then m else
  let groupKey := getGroupKey modelId in
  let groups :=
    match cooldowns m !! tokenId with
    | Some g => g
    | None => ∅
    end in
  saveToFile now write_ok
    {| cooldowns := <[tokenId := <[groupKey := Some untilTimestamp]> groups]> (cooldowns m);
       persisted := persisted m |}.

(** [isAvailable] answers and, on an expired entry, clears it and saves. *)
Definition isAvailable (now : Z) (write_ok : bool)
    (tokenId modelId : string) (m : manager) : bool * manager :=
  if negb (truthy tokenId) then (true, m) else
  match cooldowns m !! tokenId with
  | None => (true, m)
  | Some groups =>
      let groupKey := getGroupKey modelId in
      match groups !! groupKey with
      | None | Some None => (true, m)
      | Some (Some until) =>
          if until =? 0 then (true, m)
          else if until <=? now then
            (true,
             saveToFile now write_ok
               {| cooldowns := <[tokenId := <[groupKey := None]> groups]> (cooldowns m);
                  persisted := persisted m |})
          else (false, m)
      end
  end.

Definition getCooldownUntil (now : Z) (tokenId modelId : string) (m : manager)
    : option Z :=
  if negb (truthy tokenId) then None else
  match cooldowns m !! tokenId with
  | None => None
  | Some groups =>
      match groups !! getGroupKey modelId with
      | None | Some None => None
      | Some (Some until) =>
          if until =? 0 then None
          else if until <=? now then None
          else Some until
      end
  end.

(** [data && data.until && data.until <= now], the test of [_cleanupExpired]. *)
Definition expired (now : Z) (data : option Z) : bool :=
  match data with
  | Some until => negb (until =? 0) && (until <=? now)
  | None => false
  end.

(** [_cleanupExpired]: every expired entry becomes [null]; the file is saved
    when at least one entry was cleaned ([cleaned > 0]). *)
Definition _cleanupExpired (now : Z) (write_ok : bool) (m : manager) : manager :=
  let cleaned :=
    bool_decide
      (map_Exists (fun _ (g : groupMap) =>
         map_Exists (fun _ data => expired now data = true) g) (cooldowns m)) in
  let swept :=
    {| cooldowns :=
         (fun g : groupMap => (fun data => if expired now data then None else data) <$> g)
           <$> cooldowns m;
       persisted := persisted m |} in
  if cleaned then saveToFile now write_ok swept else swept.

(** [loadFromFile]: the entries of the document are put into the map, over
    what it holds, and the expired ones are swept; a failed read or parse
    ([read_ok = false]) is logged and leaves the manager as it is. The
    document is one [saveToFile] writes: each credential maps to an object,
    so the test that skips other values always passes. *)
Definition loadFromFile (now : Z) (read_ok write_ok : bool) (m : manager) : manager :=
  if read_ok
  then _cleanupExpired now write_ok
         {| cooldowns := persisted m ∪ cooldowns m; persisted := persisted m |}
  else m.

Definition clearCooldown (now : Z) (write_ok : bool)
    (tokenId modelId : string) (m : manager) : manager :=
  if negb (truthy tokenId) then m else
  match cooldowns m !! tokenId with
  | None => m
  | Some groups =>
      let groupKey := getGroupKey modelId in
      match groups !! groupKey with
      | Some (Some _) =>
          saveToFile now write_ok
            {| cooldowns := <[tokenId := <[groupKey := None]> groups]> (cooldowns m);
               persisted := persisted m |}
      | Some None | None => m
      end
  end.

Definition clearAllCooldowns (now : Z) (write_ok : bool)
    (tokenId : string) (m : manager) : manager :=
  if negb (truthy tokenId) then m else
  match cooldowns m !! tokenId with
  | Some _ =>
      saveToFile now write_ok
        {| cooldowns := delete tokenId (cooldowns m); persisted := persisted m |}
  | None => m
  end.

(** [getAllCooldowns]: per token the deadlines still ahead, collected in a
    plain object [validGroups]; the token is listed
    [if (Object.keys(validGroups).length > 0)], by an assignment
    [result[tokenId] = validGroups] on the plain object [result]. The
    formatted rendering of each deadline is not modelled. *)
Definition getAllCooldowns (now : Z) (m : manager) : gmap string (gmap string Z) :=
  map_imap (λ tokenId (g : groupMap),
              let listed : gmap string Z := omap id (validGroups now g) in
              if ownKey tokenId && bool_decide (listed ≠ ∅)
              then Some listed else None) (cooldowns m).

(** What the constructor meets on the disk: whether the data directory is
    there once [ensureFileExists] is past it ([existsSync], else
    [mkdirSync]), what [existsSync] answers for the file, and whether the
    calls [writeFileSync] of [ensureFileExists], [readFileSync] with
    [JSON.parse] of [loadFromFile] and [writeFileSync] of [saveToFile]
    succeed. *)
Record startup := Startup {
  dirReady : bool;
  fileSeen : bool;
  createOk : bool;
  loadOk : bool;
  saveOk : bool
}.

(** [ensureFileExists], on the [cooldowns] object of the file ([None]: no
    file). Nothing in it is guarded: a failing [mkdirSync] or
    [writeFileSync] throws, which is the result [None]. A file that is not
    seen is overwritten with an empty registry. *)
Definition ensureFileExists (io : startup) (file : option (gmap string groupMap))
    : option (gmap string groupMap) :=
  if negb (dirReady io) then None
  else match file with
       | Some doc =>
           if fileSeen io then Some doc
           else if createOk io then Some ∅ else None
       | None => if createOk io then Some ∅ else None
       end.

(** The constructor: an empty map, [ensureFileExists], [loadFromFile].
    [None] when it throws. *)
Definition construct (now : Z) (io : startup) (file : option (gmap string groupMap))
    : option manager :=
  match ensureFileExists io file with
  | None => None
  | Some doc =>
      Some (loadFromFile now (loadOk io) (saveOk io)
              {| cooldowns := ∅; persisted := doc |})
  end.

End TokenCooldownManager.

(** ** Signature cache *)

Module SignatureCache.
Import JsString.

(** The settings object the module reads ([config.cacheThinking] and the
    three caching switches). *)
Record config := Config {
  cacheAllSignatures : bool;
  cacheToolSignatures : bool;
  cacheImageSignatures : bool;
  cacheThinking : bool
}.

Definition MAX_SIGNATURES_PER_MODEL : nat := 3.

Record entry := Entry { signature : string; content : string }.

(** A file of the cache directory, as [readModelCache] sees it: either the
    read raises (malformed JSON) or [signatures] is not an array, or it
    holds an array of entries. The [model] and [lastModified] fields of the
    document are never read back and are left out. *)
Inductive cacheFile :=
  | Unreadable
  | SignatureFile (signatures : list entry).

(** The cache directory: model key -> file. *)
Abbreviation cacheDir := (gmap string cacheFile).

(** Outcome of the file-system calls of one operation. *)
Record io := Io { read_ok : bool; write_ok : bool }.

Definition resolutionSuffixes : list string := ["-1k"; "-2k"; "-4k"; "-8k"].

(** [raw.replace(/-(?:1k|2k|4k|8k)$/i, '')]. *)
Definition stripResolution (raw : string) : string :=
  if existsb (endsWith (toLowerCase raw)) resolutionSuffixes
  then dropRight 3 raw
  else raw.

(** The characters the second [replace] turns into an underscore: less-than,
    greater-than, colon, double quote (code 034), slash, backslash, bar,
    question mark and star. *)
Definition unsafeChars : list ascii :=
  ["<"; ">"; ":"; "034"; "/"; "\"; "|"; "?"; "*"]%char.

Definition sanitizeChar (c : ascii) : ascii :=
  if existsb (Ascii.eqb c) unsafeChars then "_"%char else c.

Fixpoint sanitize (s : string) : string :=
  match s with
  | EmptyString => EmptyString
  | String c s' => String (sanitizeChar c) (sanitize s')
  end.

(** [null] is [None]. *)
Definition makeModelKey (model : string) : option string :=
  if negb (truthy model) then None
  else Some (sanitize (stripResolution model)).

(** [!modelKey]: [null] or the empty string. *)
Definition keyTruthy (modelKey : option string) : option string :=
  match modelKey with
  | Some k => if truthy k then Some k else None
  | None => None
  end.

Definition readModelCache (dir : cacheDir) (rd : bool) (modelKey : option string)
    : list entry :=
  match keyTruthy modelKey with
  | None => []
  | Some k =>
      match dir !! k with
      | Some (SignatureFile sigs) => if rd then sigs else []
      | Some Unreadable | None => []
      end
  end.

Definition writeModelCache (dir : cacheDir) (wr : bool) (modelKey : option string)
    (signatures : list entry) : cacheDir :=
  match keyTruthy modelKey with
  | None => dir
  | Some k => if wr then <[k := SignatureFile signatures]> dir else dir
  end.

Definition getLatestEntry (dir : cacheDir) (rd : bool) (modelKey : option string)
    : option entry :=
  match keyTruthy modelKey with
  | None => None
  | Some _ => last (readModelCache dir rd modelKey)
  end.

(** [while (signatures.length > MAX) signatures.shift()]. *)
Fixpoint evict (signatures : list entry) : list entry :=
  match signatures with
  | [] => []
  | _ :: rest =>
      if (MAX_SIGNATURES_PER_MODEL <? length signatures)%nat
      then evict rest
      else signatures
  end.

(** The tail test of [pushEntry]. *)
Definition sameAsTail (signatures : list entry) (e : entry) : bool :=
  match last signatures with
  | Some t => String.eqb (signature t) (signature e)
  | None => false
  end.

Definition pushEntry (dir : cacheDir) (o : io) (modelKey : option string)
    (e : entry) : cacheDir :=
  match keyTruthy modelKey with
  | None => dir
  | Some _ =>
      if negb (truthy (signature e)) then dir else
      let signatures := readModelCache dir (read_ok o) modelKey in
      if sameAsTail signatures e then dir
      else writeModelCache dir (write_ok o) modelKey (evict (signatures ++ [e]))
  end.

Definition shouldCacheSignature (cfg : config) (hasTools isImageModel : bool) : bool :=
  if cacheAllSignatures cfg then true
  else if cacheToolSignatures cfg && hasTools then true
  else if cacheImageSignatures cfg && isImageModel then true
  else false.

Definition isImageModel (model : string) : bool :=
  if negb (truthy model) then false
  else includes (toLowerCase model) "image".

Definition processThinkingContent (cfg : config) (content : string) : string :=
  if negb (cacheThinking cfg) then " "
  else if truthy content then content else " ".

(** The [options] argument: each field present or not. *)
Record options := Options {
  opt_hasTools : option bool;
  opt_isImageModel : option bool
}.

Definition noOptions : options := Options None None.

(** [content] omitted ([None]) takes the default [' ']. *)
Definition setSignature (cfg : config) (dir : cacheDir) (o : io)
    (sessionId model signature : string) (content : option string)
    (opts : options) : cacheDir :=
  if negb (truthy signature) || negb (truthy model) then dir else
  let isImage := default (isImageModel model) (opt_isImageModel opts) in
  let hasTools := default false (opt_hasTools opts) in
  if negb (shouldCacheSignature cfg hasTools isImage) then dir else
  let processedContent := processThinkingContent cfg (default " " content) in
  pushEntry dir o (makeModelKey model) (Entry signature processedContent).

Definition getSignature (cfg : config) (dir : cacheDir) (rd : bool)
    (sessionId model : string) (opts : options) : option entry :=
  if negb (truthy model) then None else
  match getLatestEntry dir rd (makeModelKey model) with
  | None => None
  | Some e =>
      Some (Entry (signature e) (if cacheThinking cfg then content e else " "))
  end.

(** The wrappers kept for the older callers. *)
Definition setReasoningSignature (cfg : config) (dir : cacheDir) (o : io)
    (sessionId model signature : string) (content : option string)
    (opts : options) : cacheDir :=
  setSignature cfg dir o sessionId model signature content opts.

Definition getReasoningSignature (cfg : config) (dir : cacheDir) (rd : bool)
    (sessionId model : string) (opts : options) : option entry :=
  getSignature cfg dir rd sessionId model opts.


Definition getToolSignature (cfg : config) (dir : cacheDir) (rd : bool)
    (sessionId model : string) (opts : options) : option entry :=
  getSignature cfg dir rd sessionId model opts.

(** [getCacheFilePath]: the name of a model's file in the cache directory. *)
Definition getCacheFilePath (modelKey : string) : string := modelKey +:+ ".json".

(** The loop of [clearThoughtSignatureCaches] over the names [files] that
    [readdirSync] returned: a name ending in [.json] is unlinked, any other
    is passed over. [unlink_ok] gives the outcome of the calls of
    [unlinkSync] in order (calls past its end succeed); a failing call
    throws, which leaves the loop with the files unlinked so far gone. *)
Fixpoint unlinkAll (dir : cacheDir) (files : list string) (unlink_ok : list bool)
    : cacheDir :=
  match files with
  | [] => dir
  | file :: rest =>
      if endsWith file ".json" then
        match unlink_ok with
        | false :: _ => dir
        | true :: outcomes => unlinkAll (delete (dropRight 5 file) dir) rest outcomes
        | [] => unlinkAll (delete (dropRight 5 file) dir) rest []
        end
      else unlinkAll dir rest unlink_ok
  end.

(** [clearThoughtSignatureCaches]. [listing] is what [readdirSync] returns,
    [None] when the directory is not seen or the call throws; every
    exception is caught and logged. *)
Definition clearThoughtSignatureCaches (dir : cacheDir)
    (listing : option (list string)) (unlink_ok : list bool) : cacheDir :=
  match listing with
  | Some files => unlinkAll dir files unlink_ok
  | None => dir
  end.

End SignatureCache.

(** ** Token store *)

Module TokenStore.
Import JsString.

(** Field values of a credential record: the JSON primitives. On these
    [===] is equality. *)
Inductive jsval :=
  | JNull
  | JBool (b : bool)
  | JNum (n : Z)
  | JStr (s : string).

#[export] Instance jsval_eq_dec : EqDecision jsval.
Proof. solve_decision. Defined.

(** A credential record: a JS object, field name -> value. *)
Abbreviation record := (gmap string jsval).

(** The [tokens] field of a parsed document. *)
Inductive tokensField :=
  | NoTokens                      (* absent or falsy *)
  | NotAnArray                    (* truthy, but not an array *)
  | Tokens (records : list record).

(** What [JSON.parse(data || '{}')] yields on the file's text.
    [salt] is the empty string when the field is absent or falsy. *)
Inductive document :=
  | Malformed                     (* parsing, or reading a field, raises *)
  | BareArray (records : list record)
  | Document (salt : string) (tokens : tokensField).

(** The store object together with the world it acts on: the file at
    [filePath] ([None]: no such file), the outcomes of the file-system
    calls still to come ([true]: the call succeeds; a call past the end of
    the list succeeds), and the number of salts drawn so far. [_cacheTTL]
    holds the constant [FILE_CACHE_TTL] of constants/index.js. *)
Record store := Store {
  _cache : option (list record);
  _cacheTime : Z;
  _cacheTTL : Z;
  _salt : option string;
  file : option document;
  outcomes : list bool;
  drawn : nat
}.

(** A call returns or throws; its effects on the store stay either way. *)
Inductive result (A : Type) :=
  | Returned (a : A)
  | Thrown.
Arguments Returned {A} a.
Arguments Thrown {A}.

Definition M (A : Type) : Type := store -> result A * store.

Definition ret {A} (a : A) : M A := fun s => (Returned a, s).

Definition throw {A} : M A := fun s => (Thrown, s).

Definition bind {A B} (m : M A) (k : A -> M B) : M B :=
  fun s =>
    match m s with
    | (Returned a, s') => k a s'
    | (Thrown, s') => (Thrown, s')
    end.

(** [try { m } catch (e) { handler }]. *)
Definition try_catch {A} (m handler : M A) : M A :=
  fun s =>
    match m s with
    | (Returned a, s') => (Returned a, s')
    | (Thrown, s') => handler s'
    end.

Definition get : M store := fun s => (Returned s, s).

Definition modify (f : store -> store) : M unit := fun s => (Returned tt, f s).

Notation "'let*' x ':=' m 'in' k" := (bind m (fun x => k))
  (at level 10, x binder, m at level 100, k at level 200).
Notation "'run' m 'in' k" := (bind m (fun _ => k))
  (at level 10, m at level 100, k at level 200).

(** *** File-system calls *)

(** Outcome of the next file-system call. *)
Definition nextOutcome : M bool :=
  fun s =>
    match outcomes s with
    | [] => (Returned true, s)
    | b :: rest =>
        (Returned b,
         {| _cache := _cache s; _cacheTime := _cacheTime s; _cacheTTL := _cacheTTL s;
            _salt := _salt s; file := file s; outcomes := rest; drawn := drawn s |})
    end.

Definition set_file (d : document) (s : store) : store :=
  {| _cache := _cache s; _cacheTime := _cacheTime s; _cacheTTL := _cacheTTL s;
     _salt := _salt s; file := Some d; outcomes := outcomes s; drawn := drawn s |}.

Definition set_salt (v : string) (s : store) : store :=
  {| _cache := _cache s; _cacheTime := _cacheTime s; _cacheTTL := _cacheTTL s;
     _salt := Some v; file := file s; outcomes := outcomes s; drawn := drawn s |}.

Definition set_cache (c : list record) (s : store) : store :=
  {| _cache := Some c; _cacheTime := _cacheTime s; _cacheTTL := _cacheTTL s;
     _salt := _salt s; file := file s; outcomes := outcomes s; drawn := drawn s |}.

Definition set_cacheTime (t : Z) (s : store) : store :=
  {| _cache := _cache s; _cacheTime := t; _cacheTTL := _cacheTTL s;
     _salt := _salt s; file := file s; outcomes := outcomes s; drawn := drawn s |}.

Definition set_drawn (n : nat) (s : store) : store :=
  {| _cache := _cache s; _cacheTime := _cacheTime s; _cacheTTL := _cacheTTL s;
     _salt := _salt s; file := file s; outcomes := outcomes s; drawn := n |}.

(** [fs.access(filePath)]: throws when the file is missing or the call fails. *)
Definition fs_access : M unit :=
  let* ok := nextOutcome in
  let* s := get in
  match file s with
  | Some _ => if ok then ret tt else throw
  | None => throw
  end.

(** [JSON.parse(await fs.readFile(filePath))]. *)
Definition fs_readFile : M document :=
  let* ok := nextOutcome in
  let* s := get in
  match file s with
  | Some d => if ok then ret d else throw
  | None => throw
  end.

(** [fs.writeFile(filePath, JSON.stringify(d))]: all or nothing. *)
Definition fs_writeFile (d : document) : M unit :=
  let* ok := nextOutcome in
  if ok then modify (set_file d) else throw.

(** *** The merge of [mergeActiveTokens] *)

(** [t.refresh_token === targetToken.refresh_token]; an absent field
    reads [undefined] on both sides. *)
Definition sameRefreshToken (targetToken t : record) : Prop :=
  t !! "refresh_token" = targetToken !! "refresh_token".

#[export] Instance sameRefreshToken_dec targetToken t :
  Decision (sameRefreshToken targetToken t).
Proof. unfold sameRefreshToken. apply _. Defined.

(** [const { sessionId, ...plain } = targetToken]. *)
Definition plain (targetToken : record) : record :=
  delete "sessionId" targetToken.

(** The closure [applyUpdate] of [mergeActiveTokens], acting on the
    local array [allTokens]; [None] is a [null] element. *)
Definition applyUpdate (allTokens : list record) (targetToken : option record)
    : list record :=
  match targetToken with
  | None => allTokens
  | Some target =>
      match list_find (sameRefreshToken target) allTokens with
      | Some (index, found) => <[index := plain target ∪ found]> allTokens
      | None => allTokens
      end
  end.

(** The updates [mergeActiveTokens] applies between its read and its
    write. An [activeTokens] that is not an array behaves as [[]]. *)
Definition mergeTokens (allTokens : list record)
    (activeTokens : list (option record)) (tokenToUpdate : option record)
    : list record :=
  match tokenToUpdate with
  | Some _ => applyUpdate allTokens tokenToUpdate
  | None => foldl applyUpdate allTokens activeTokens
  end.

(** *** The operations of the store *)

Section WithGenerator.

(** [generateSalt] of utils/idGenerator.js is a random source; the
    [n]-th value it hands out is [salts n]. *)
Variable salts : nat -> string.

Definition generateSalt : M string :=
  let* s := get in
  run modify (set_drawn (S (drawn s))) in
  ret (salts (drawn s)).

(** [fs.mkdir] is attempted first and its failure ignored; the model
    starts at [fs.access]. *)
Definition _ensureFileExists : M unit :=
  try_catch fs_access
    (let* salt := generateSalt in
     fs_writeFile (Document salt (Tokens []))).

(** [if (this._salt)]. *)
Definition saltTruthy (o : option string) : option string :=
  match o with
  | Some v => if truthy v then Some v else None
  | None => None
  end.

Definition getSalt : M string :=
  let* s := get in
  match saltTruthy (_salt s) with
  | Some v => ret v
  | None =>
      run _ensureFileExists in
      try_catch
        (let* parsed := fs_readFile in
         match parsed with
         | Malformed => throw
         | BareArray records =>
             let* salt := generateSalt in
             run fs_writeFile (Document salt (Tokens records)) in
             run modify (set_salt salt) in
             ret salt
         | Document salt tokens =>
             let* salt' :=
               (if negb (truthy salt) then
                  let* fresh := generateSalt in
                  run fs_writeFile
                        (Document fresh
                           match tokens with
                           | NoTokens => Tokens []
                           | other => other
                           end) in
                  ret fresh
                else ret salt) in
             run modify (set_salt salt') in
             ret salt'
         end)
        (let* salt := generateSalt in
         run modify (set_salt salt) in
         ret salt)
  end.

Definition _isCacheValid (now : Z) (s : store) : bool :=
  match _cache s with
  | None => false
  | Some _ => now - _cacheTime s <? _cacheTTL s
  end.

Definition readAll (now : Z) : M (list record) :=
  let* s := get in
  if _isCacheValid now s then ret (default [] (_cache s)) else
  run _ensureFileExists in
  run try_catch
        (let* parsed := fs_readFile in
         match parsed with
         | Malformed => throw
         | BareArray records => modify (set_cache records)
         | Document _ (Tokens records) => modify (set_cache records)
         | Document _ _ => modify (set_cache [])
         end)
        (modify (set_cache [])) in
  run modify (set_cacheTime now) in
  let* s' := get in
  ret (default [] (_cache s')).

(** [tokens] that is not an array ([None]) is normalized to [[]]. *)
Definition writeAll (now : Z) (tokens : option (list record)) : M unit :=
  run _ensureFileExists in
  let normalized := default [] tokens in
  let* salt := getSalt in
  try_catch
    (run fs_writeFile (Document salt (Tokens normalized)) in
     run modify (set_cache normalized) in
     modify (set_cacheTime now))
    throw.

Definition mergeActiveTokens (now : Z) (activeTokens : list (option record))
    (tokenToUpdate : option record) : M unit :=
  let* allTokens := readAll now in
  writeAll now (Some (mergeTokens allTokens activeTokens tokenToUpdate)).

End WithGenerator.

End TokenStore.

(** * Vocabulary of the properties *)

Import JsString TokenCooldownManager SignatureCache TokenStore.


(** The deadline a cooldown map holds for a credential and a family:
    [cooldowns.get(tokenId)?.[groupKey]?.until]. *)
Definition deadline (cds : gmap string groupMap) (tokenId groupKey : string)
    : option Z :=
  match cds !! tokenId with
  | Some g =>
      match g !! groupKey with
      | Some (Some until) => Some until
      | Some None | None => None
      end
  | None => None
  end.

(** A deadline still ahead at instant [t]. *)
Definition ahead (t : Z) (d : option Z) : option Z :=
  match d with
  | Some until => if (until =? 0) || (until <=? t) then None else Some until
  | None => None
  end.

(** A deadline after the sweep of [_cleanupExpired]. *)
Definition afterSweep (now : Z) (d : option Z) : option Z :=
  match d with
  | Some until => if expired now (Some until) then None else Some until
  | None => None
  end.

(** A manager with two cooldowns, used in the concrete runs: credential
    [t1] against the claude family until 5000, [t2] against gemini until
    9000. *)
Definition twoCooldowns : manager :=
  setCooldown 1000 true "t1" "claude-3-opus" 5000
    (setCooldown 1000 true "t2" "gemini-pro" 9000 (Manager ∅ ∅)).

(** A disk on which every call of the constructor succeeds. *)
Definition healthy : startup := Startup true true true true true.

(** [files] names the file of every model the directory holds. *)
Definition listsAll (dir : cacheDir) (files : list string) : Prop :=
  forall modelKey, is_Some (dir !! modelKey) -> In (getCacheFilePath modelKey) files.


(** A name without any of the characters [sanitize] replaces. *)
Definition filenameSafe (s : string) : Prop :=
  forall c, In c (list_ascii_of_string s) -> ~ In c unsafeChars.

(** The history stored for a model key: what a successful read returns. *)
Definition history (dir : cacheDir) (modelKey : string) : list entry :=
  readModelCache dir true (Some modelKey).

(** One call of [pushEntry], with the outcome of its file-system calls. *)
Record push := Push {
  push_io : io;
  push_key : option string;
  push_entry : entry
}.

(** The directory after a sequence of pushes. *)
Definition runPushes (dir : cacheDir) (pushes : list push) : cacheDir :=
  foldl (fun d p => pushEntry d (push_io p) (push_key p) (push_entry p)) dir pushes.

(** Every history file holds at most [MAX_SIGNATURES_PER_MODEL] entries. *)
Definition bounded (dir : cacheDir) : Prop :=
  forall k sigs, dir !! k = Some (SignatureFile sigs) ->
    (length sigs <= MAX_SIGNATURES_PER_MODEL)%nat.

(** The identity key of a record. *)
Definition refreshToken (r : record) : option jsval := r !! "refresh_token".

(** The index [findIndex] returns for a target in a sequence of records. *)
Definition matchIndex (l : list record) (target : record) : option nat :=
  fst <$> list_find (sameRefreshToken target) l.

(** The fields one applied record lays over the record at index [j]: its
    own, [sessionId] apart, when [j] is where it lands, none otherwise. *)
Definition patch (l : list record) (j : nat) (a : option record) : record :=
  match a with
  | Some target => if decide (matchIndex l target = Some j) then plain target else ∅
  | None => ∅
  end.

(** The records [readAll] keeps for the outcome of its guarded read: those
    of the document, and none when the read throws, the text is malformed or
    [tokens] is no array. *)
Definition recordsRead (r : result document) : list record :=
  match r with
  | Returned (BareArray records) => records
  | Returned (Document _ (Tokens records)) => records
  | Returned (Document _ _) | Returned Malformed | Thrown => []
  end.

(** Outcome of the [n]-th file-system call to come. *)
Definition outcomeAt (n : nat) (s : store) : bool := nth n (outcomes s) true.

(** The guarded block of [writeAll]: write the document, refresh the cache,
    rethrow a failure. *)
Definition persist (now : Z) (normalized : list record) (salt : string) : M unit :=
  try_catch
    (run fs_writeFile (Document salt (Tokens normalized)) in
     run modify (set_cache normalized) in
     modify (set_cacheTime now))
    throw.

(** The calls a client can make on the store. *)
Inductive operation :=
  | CallGetSalt
  | CallReadAll (now : Z)
  | CallWriteAll (now : Z) (tokens : option (list record))
  | CallMergeActiveTokens (now : Z) (activeTokens : list (option record))
      (tokenToUpdate : option record).

Section StoreVocabulary.

Variable salts : nat -> string.

(** The store after a call, returned or thrown. *)
Definition perform (s : store) (op : operation) : store :=
  match op with
  | CallGetSalt => (getSalt salts s).2
  | CallReadAll now => (readAll salts now s).2
  | CallWriteAll now tokens => (writeAll salts now tokens s).2
  | CallMergeActiveTokens now activeTokens tokenToUpdate =>
      (mergeActiveTokens salts now activeTokens tokenToUpdate s).2
  end.

End StoreVocabulary.

(** Data of the concrete runs. *)

(** A store object just constructed, over a given file and given outcomes of
    the file-system calls to come. *)
Definition freshStore (f : option document) (o : list bool) : store :=
  {| _cache := None; _cacheTime := 0; _cacheTTL := 5000; _salt := None;
     file := f; outcomes := o; drawn := 0 |}.

Definition oneSalt (n : nat) : string := "3f9c2a7d".

Definition recordA : record :=
  {[ "refresh_token" := JStr "rt-A"; "access_token" := JStr "old-A";
     "enable" := JBool true ]}.

Definition recordB : record :=
  {[ "refresh_token" := JStr "rt-B"; "access_token" := JStr "old-B";
     "enable" := JBool false ]}.

Definition recordA' : record :=
  {[ "refresh_token" := JStr "rt-A"; "access_token" := JStr "new-A";
     "expires_in" := JNum 3599; "sessionId" := JStr "session-1" ]}.

Definition recordC : record :=
  {[ "refresh_token" := JStr "rt-C"; "access_token" := JStr "new-C" ]}.

(** A store over a document of two records, with the outcomes [o] to come. *)
Definition twoRecordStore (o : list bool) : store :=
  freshStore (Some (Document "installed-salt" (Tokens [recordA; recordB]))) o.

(** * Properties *)

(** ** The embedding on sample inputs *)

Example getGroupKey_samples :
  getGroupKey "claude-opus-4-5-thinking" = "claude" /\
  getGroupKey "Gemini-3-Pro-Image-2K" = "banana" /\
  getGroupKey "gemini-2.5-flash" = "gemini" /\
  getGroupKey "publishers/google/models/text-embedding" = "gemini" /\
  getGroupKey "gpt-oss-120b" = "other" /\
  getGroupKey EmptyString = "other".
Proof. repeat split. Qed.

Example makeModelKey_samples :
  makeModelKey "gemini-3-pro-image-4K" = Some "gemini-3-pro-image" /\
  makeModelKey "gemini-3-pro-image-2k" = Some "gemini-3-pro-image" /\
  makeModelKey "gemini-3-pro-image" = Some "gemini-3-pro-image" /\
  makeModelKey "models/gemini-3-pro-image-1K" = Some "models_gemini-3-pro-image" /\
  makeModelKey "gemini-2K-4K" = Some "gemini-2K" /\
  makeModelKey EmptyString = None.
Proof. repeat split. Qed.

Example evict_samples (a b c d e : entry) :
  evict [a; b; c] = [a; b; c] /\
  evict [a; b; c; d] = [b; c; d] /\
  evict [a; b; c; d; e] = [c; d; e].
Proof. repeat split. Qed.

Example applyUpdate_samples :
  applyUpdate [recordB; recordA] (Some recordA') !! 1%nat =
    Some {[ "refresh_token" := JStr "rt-A"; "access_token" := JStr "new-A";
            "enable" := JBool true; "expires_in" := JNum 3599 ]} /\
  applyUpdate [recordB; recordA] (Some recordC) = [recordB; recordA] /\
  applyUpdate [recordB; recordA] None = [recordB; recordA].
Proof. vm_compute. repeat split. Qed.

(** ** Strings *)




Lemma append_String (c : ascii) (a b : string) :
  String c a +:+ b = String c (a +:+ b).
Proof. reflexivity. Qed.







(** ** Cooldown registry *)




Lemma saveToFile_cooldowns (now : Z) (wr : bool) (m : manager) :
  cooldowns (saveToFile now wr m) = cooldowns m.
Proof. unfold saveToFile. destruct wr; reflexivity. Qed.

(** After a [setCooldown] that passes its guard, the family entry of the
    credential holds the new deadline, whatever was there before. *)
Lemma setCooldown_entry (now : Z) (wr : bool) (tokenId modelId : string)
    (untilTimestamp : Z) (m : manager) :
  truthy tokenId = true -> untilTimestamp <> 0 ->
  exists g,
    cooldowns (setCooldown now wr tokenId modelId untilTimestamp m) !! tokenId = Some g /\
    g !! getGroupKey modelId = Some (Some untilTimestamp).
Proof.
  intros Ht Hu. unfold setCooldown. rewrite Ht.
  apply Z.eqb_neq in Hu. rewrite Hu. simpl.
  rewrite saveToFile_cooldowns. simpl.
  eexists. rewrite lookup_insert_eq. split; [reflexivity|].
  apply lookup_insert_eq.
Qed.

(** What the two checks answer on a manager holding a deadline for the
    family: unavailable strictly before it, available from it on. *)
Lemma check_entry (t : Z) (wr : bool) (tokenId modelId : string)
    (untilTimestamp : Z) (m : manager) (g : groupMap) :
  truthy tokenId = true -> untilTimestamp <> 0 ->
  cooldowns m !! tokenId = Some g ->
  g !! getGroupKey modelId = Some (Some untilTimestamp) ->
  (t < untilTimestamp ->
     isAvailable t wr tokenId modelId m = (false, m) /\
     getCooldownUntil t tokenId modelId m = Some untilTimestamp) /\
  (untilTimestamp <= t ->
     (isAvailable t wr tokenId modelId m).1 = true /\
     getCooldownUntil t tokenId modelId m = None).
Proof.
  intros Ht Hu Hg Hk. apply Z.eqb_neq in Hu.
  split; intros Hlt; unfold isAvailable, getCooldownUntil;
    rewrite Ht; simpl; rewrite Hg, Hk, Hu.
  - assert (E : (untilTimestamp <=? t) = false) by (apply Z.leb_gt; lia).
    rewrite E. split; reflexivity.
  - assert (E : (untilTimestamp <=? t) = true) by (apply Z.leb_le; lia).
    rewrite E. split; reflexivity.
Qed.

(** C1. For every credential identifier, model identifier and deadline in
    the future, and whatever cooldown the manager held before: after
    [setCooldown], at any instant before the deadline [isAvailable] answers
    [false] (leaving the manager as it is) and [getCooldownUntil] answers
    the deadline; at any instant at or past the deadline [isAvailable]
    answers [true] and [getCooldownUntil] answers nothing. A credential
    identifier is a non-empty string (a call without one is the no-op of
    [setCooldown_absent_credential]), and the clock reads epoch
    milliseconds, which are not negative. *)
Theorem setCooldown_then_check (now : Z) (wr wr' : bool)
    (tokenId modelId : string) (untilTimestamp : Z) (m : manager) :
  truthy tokenId = true ->
  0 <= now ->
  now < untilTimestamp ->
  let m' := setCooldown now wr tokenId modelId untilTimestamp m in
  (forall t, t < untilTimestamp ->
     isAvailable t wr' tokenId modelId m' = (false, m') /\
     getCooldownUntil t tokenId modelId m' = Some untilTimestamp) /\
  (forall t, untilTimestamp <= t ->
     (isAvailable t wr' tokenId modelId m').1 = true /\
     getCooldownUntil t tokenId modelId m' = None).
Proof.
  intros Ht Hnow Hfut m'.
  assert (Hu : untilTimestamp <> 0) by lia.
  destruct (setCooldown_entry now wr tokenId modelId untilTimestamp m Ht Hu)
    as (g & Hg & Hk).
  split; intros t Hlt;
    now apply (check_entry t wr' tokenId modelId untilTimestamp m' g).
Qed.

Lemma setCooldown_then_check_witness :
  let m' := setCooldown 1000 true "t1" "claude-3-opus" 3601000 (Manager ∅ ∅) in
  (forall t, t < 3601000 ->
     isAvailable t true "t1" "claude-3-opus" m' = (false, m') /\
     getCooldownUntil t "t1" "claude-3-opus" m' = Some 3601000) /\
  (forall t, 3601000 <= t ->
     (isAvailable t true "t1" "claude-3-opus" m').1 = true /\
     getCooldownUntil t "t1" "claude-3-opus" m' = None).
Proof.
  apply (setCooldown_then_check 1000 true true "t1" "claude-3-opus" 3601000 (Manager ∅ ∅));
    [reflexivity | lia | lia].
Defined.

(** Without a credential identifier the calls return at their guard:
    [setCooldown] stores nothing, [isAvailable] answers [true] and
    [getCooldownUntil] answers nothing. *)
Lemma setCooldown_absent_credential (now : Z) (wr : bool) (modelId : string)
    (untilTimestamp : Z) (m : manager) :
  setCooldown now wr EmptyString modelId untilTimestamp m = m /\
  isAvailable now wr EmptyString modelId m = (true, m) /\
  getCooldownUntil now EmptyString modelId m = None.
Proof.
  repeat split.
Qed.

(** Last writer wins: a shorter deadline replaces a longer one. *)
Lemma setCooldown_overwrites_with_shorter (now : Z) (tokenId modelId : string)
    (longer shorter : Z) (m : manager) :
  truthy tokenId = true -> 0 <= now -> now < shorter -> shorter < longer ->
  let m1 := setCooldown now true tokenId modelId longer m in
  let m2 := setCooldown now true tokenId modelId shorter m1 in
  getCooldownUntil now tokenId modelId m1 = Some longer /\
  getCooldownUntil now tokenId modelId m2 = Some shorter.
Proof.
  intros Ht Hnow Hs Hl m1 m2.
  destruct (setCooldown_entry now true tokenId modelId longer m Ht) as (g1 & G1 & K1);
    [lia|].
  destruct (setCooldown_entry now true tokenId modelId shorter m1 Ht) as (g2 & G2 & K2);
    [lia|].
  split.
  - apply (check_entry now true tokenId modelId longer m1 g1); auto; lia.
  - apply (check_entry now true tokenId modelId shorter m2 g2); auto; lia.
Qed.

(** ** Signature cache *)

Lemma endsWith_unfold (s p : string) :
  endsWith s p =
  String.eqb s p ||
  match s with
  | EmptyString => false
  | String _ s' => endsWith s' p
  end.
Proof. destruct s; reflexivity. Qed.

Lemma endsWith_app (a p : string) : endsWith (a +:+ p) p = true.
Proof.
  induction a as [|c a IH].
  - change (EmptyString +:+ p) with p. rewrite endsWith_unfold, String.eqb_refl. reflexivity.
  - rewrite append_String. simpl. rewrite IH. apply orb_true_r.
Qed.


Lemma append_length (a b : string) :
  String.length (a +:+ b) = (String.length a + String.length b)%nat.
Proof.
  induction a as [|c a IH]; [reflexivity|].
  rewrite append_String. simpl. now rewrite IH.
Qed.

Lemma substring_prefix (a b : string) :
  String.substring 0 (String.length a) (a +:+ b) = a.
Proof.
  induction a as [|c a IH].
  - change (EmptyString +:+ b) with b. destruct b; reflexivity.
  - rewrite append_String. simpl. now rewrite IH.
Qed.

Lemma dropRight_app (a b : string) :
  dropRight (String.length b) (a +:+ b) = a.
Proof.
  unfold dropRight. rewrite append_length.
  replace (String.length a + String.length b - String.length b)%nat
    with (String.length a) by lia.
  apply substring_prefix.
Qed.




Lemma evict_drop (l : list entry) :
  evict l = drop (length l - MAX_SIGNATURES_PER_MODEL) l.
Proof.
  unfold MAX_SIGNATURES_PER_MODEL.
  induction l as [|x l IH]; [reflexivity|].
  cbn [evict]. unfold MAX_SIGNATURES_PER_MODEL.
  destruct (Nat.ltb_spec 3 (length (x :: l))) as [H|H].
  - rewrite IH. simpl in H. simpl length.
    replace (S (length l) - 3)%nat with (S (length l - 3)) by lia. reflexivity.
  - replace (length (x :: l) - 3)%nat with 0%nat by lia. reflexivity.
Qed.

Lemma evict_length (l : list entry) :
  (length (evict l) <= MAX_SIGNATURES_PER_MODEL)%nat.
Proof. rewrite evict_drop, length_drop. unfold MAX_SIGNATURES_PER_MODEL. lia. Qed.

Lemma keyTruthy_Some (k : string) : truthy k = true -> keyTruthy (Some k) = Some k.
Proof. intros H. unfold keyTruthy. now rewrite H. Qed.

Lemma history_length_bounded (dir : cacheDir) (k : string) :
  bounded dir -> (length (history dir k) <= MAX_SIGNATURES_PER_MODEL)%nat.
Proof.
  intros B. unfold history, readModelCache.
  destruct (keyTruthy (Some k)) as [k'|]; [|simpl; lia].
  destruct (dir !! k') as [[|sigs]|] eqn:E; simpl; try lia.
  exact (B _ _ E).
Qed.

Lemma pushEntry_bounded (dir : cacheDir) (o : io) (modelKey : option string) (e : entry) :
  bounded dir -> bounded (pushEntry dir o modelKey e).
Proof.
  intros B. unfold pushEntry.
  destruct (keyTruthy modelKey) as [k|] eqn:K; [|exact B].
  destruct (negb (truthy (signature e))); [exact B|].
  destruct (sameAsTail _ e); [exact B|].
  unfold writeModelCache. rewrite K.
  destruct (write_ok o); [|exact B].
  intros k' sigs H. destruct (decide (k = k')) as [->|Hne].
  - rewrite lookup_insert_eq in H. inversion H. apply evict_length.
  - rewrite lookup_insert_ne in H by exact Hne. exact (B _ _ H).
Qed.

Lemma runPushes_bounded (pushes : list push) (dir : cacheDir) :
  bounded dir -> bounded (runPushes dir pushes).
Proof.
  revert dir. induction pushes as [|p ps IH]; intros dir B; [exact B|].
  apply IH. now apply pushEntry_bounded.
Qed.

Lemma bounded_empty : bounded ∅.
Proof. intros k sigs H. rewrite lookup_empty in H. discriminate. Qed.

(** A push that is read, is no repetition of the tail and is written. *)
Lemma pushEntry_appends (dir : cacheDir) (k : string) (e : entry) :
  truthy k = true -> truthy (signature e) = true ->
  sameAsTail (history dir k) e = false ->
  pushEntry dir (Io true true) (Some k) e =
  <[k := SignatureFile (evict (history dir k ++ [e]))]> dir.
Proof.
  intros Hk He Hd. unfold pushEntry. rewrite (keyTruthy_Some k Hk), He. simpl.
  fold (history dir k). rewrite Hd.
  unfold writeModelCache. now rewrite (keyTruthy_Some k Hk).
Qed.

Lemma history_insert (dir : cacheDir) (k : string) (sigs : list entry) :
  truthy k = true -> history (<[k := SignatureFile sigs]> dir) k = sigs.
Proof.
  intros Hk. unfold history, readModelCache.
  now rewrite (keyTruthy_Some k Hk), lookup_insert_eq.
Qed.

(** C5. On a cache directory built by pushes (whatever their keys, entries
    and I/O outcomes), after one more push the history of any base model has
    at most 3 entries; a push whose signature equals that of the current tail
    changes nothing; and a push that goes through stores the last 3 entries
    of the old history followed by the new entry, in push order with the
    latest last: on a full history the oldest entry is the one evicted. *)
Theorem pushEntry_history_invariant (pushes : list push) (o : io)
    (k : string) (e : entry) :
  let dir := runPushes ∅ pushes in
  let dir' := pushEntry dir o (Some k) e in
  (forall k', length (history dir' k') <= MAX_SIGNATURES_PER_MODEL)%nat /\
  (read_ok o = true -> sameAsTail (history dir k) e = true -> dir' = dir) /\
  (truthy k = true -> truthy (signature e) = true ->
   sameAsTail (history dir k) e = false -> o = Io true true ->
   history dir' k =
     drop (length (history dir k ++ [e]) - MAX_SIGNATURES_PER_MODEL)
          (history dir k ++ [e]) /\
   last (history dir' k) = Some e /\
   (length (history dir k) = MAX_SIGNATURES_PER_MODEL ->
      history dir' k = (tail (history dir k) ++ [e])%list)).
Proof.
  intros dir dir'.
  assert (B : bounded dir) by (apply runPushes_bounded, bounded_empty).
  split; [|split].
  - intros k'. apply history_length_bounded. now apply pushEntry_bounded.
  - intros Hr Hd. subst dir'. unfold pushEntry.
    destruct (keyTruthy (Some k)); [|reflexivity].
    destruct (negb (truthy (signature e))); [reflexivity|].
    rewrite Hr. fold (history dir k). now rewrite Hd.
  - intros Hk He Hd ->. subst dir'.
    rewrite (pushEntry_appends dir k e Hk He Hd), (history_insert _ _ _ Hk).
    pose proof (history_length_bounded dir k B) as Hlen.
    rewrite evict_drop. split; [reflexivity|]. split.
    + rewrite length_app. simpl length. unfold MAX_SIGNATURES_PER_MODEL in *.
      rewrite drop_app_le by lia. apply last_snoc.
    + intros H3. rewrite length_app, H3. simpl.
      destruct (history dir k); [discriminate|]. reflexivity.
Qed.

Lemma pushEntry_history_invariant_witness :
  let p s := Push (Io true true) (Some "m") (Entry s " ") in
  let e4 := Entry "s4" " " in
  let dir := runPushes ∅ [p "s1"; p "s2"; p "s3"] in
  let dir' := pushEntry dir (Io true true) (Some "m") e4 in
  (truthy "m" = true /\ truthy (signature e4) = true /\
   sameAsTail (history dir "m") e4 = false /\
   length (history dir "m") = MAX_SIGNATURES_PER_MODEL) /\
  history dir' "m" = [Entry "s2" " "; Entry "s3" " "; e4] /\
  pushEntry dir' (Io true true) (Some "m") (Entry "s4" "again") = dir'.
Proof.
  intros p e4 dir dir'.
  split; [repeat split; vm_compute; reflexivity|]. split.
  - apply (pushEntry_history_invariant [p "s1"; p "s2"; p "s3"] (Io true true) "m" e4);
      vm_compute; reflexivity.
  - apply (pushEntry_history_invariant [p "s1"; p "s2"; p "s3"; Push (Io true true) (Some "m") e4]
             (Io true true) "m" (Entry "s4" "again"));
      vm_compute; reflexivity.
Defined.

Lemma getLatestEntry_history (dir : cacheDir) (k : string) :
  truthy k = true -> getLatestEntry dir true (Some k) = last (history dir k).
Proof. intros Hk. unfold getLatestEntry. now rewrite (keyTruthy_Some k Hk). Qed.

(** What [setSignature] does once its guards are passed. *)
Lemma setSignature_pushes (cfg : config) (dir : cacheDir) (o : io)
    (sessionId model sig : string) (content : option string) (opts : options) :
  truthy sig = true -> truthy model = true ->
  shouldCacheSignature cfg (default false (opt_hasTools opts))
    (default (isImageModel model) (opt_isImageModel opts)) = true ->
  setSignature cfg dir o sessionId model sig content opts =
  pushEntry dir o (makeModelKey model)
    (Entry sig (processThinkingContent cfg (default " " content))).
Proof.
  intros Hs Hm Hc. unfold setSignature. now rewrite Hs, Hm, Hc.
Qed.

(** C6. [getSignature] hands back the signature of the latest stored entry
    unchanged; the content is the stored one when [cacheThinking] is on at
    the time of the read and the single-space placeholder when it is off,
    and this also for an entry that [setSignature] stored, content
    included, while [cacheThinking] was on. *)
Theorem getSignature_content_gated_at_read (cfgR : config) (dir : cacheDir)
    (sessionId model : string) (opts : options) :
  (forall rd e,
     getLatestEntry dir rd (makeModelKey model) = Some e ->
     getSignature cfgR dir rd sessionId model opts =
       Some (Entry (signature e) (if cacheThinking cfgR then content e else " "))) /\
  (forall cfgW sessionW optsW k sig text,
     cacheThinking cfgW = true ->
     shouldCacheSignature cfgW (default false (opt_hasTools optsW))
       (default (isImageModel model) (opt_isImageModel optsW)) = true ->
     makeModelKey model = Some k -> truthy k = true ->
     truthy sig = true -> truthy text = true ->
     sameAsTail (history dir k) (Entry sig text) = false ->
     let dir' := setSignature cfgW dir (Io true true) sessionW model sig (Some text) optsW in
     last (history dir' k) = Some (Entry sig text) /\
     getSignature cfgR dir' true sessionId model opts =
       Some (Entry sig (if cacheThinking cfgR then text else " "))).
Proof.
  split.
  - intros rd e He. unfold getSignature.
    destruct (truthy model) eqn:Hm; simpl; [now rewrite He|].
    unfold makeModelKey in He. rewrite Hm in He. discriminate.
  - intros cfgW sessionW optsW k sig text Hon Hc Hk Tk Ts Tt Hd dir'.
    assert (Hm : truthy model = true).
    { unfold makeModelKey in Hk. destruct (truthy model); [reflexivity|discriminate]. }
    assert (Hl : last (history dir' k) = Some (Entry sig text)).
    { subst dir'. rewrite (setSignature_pushes _ _ _ _ _ _ _ _ Ts Hm Hc), Hk.
      unfold processThinkingContent. rewrite Hon. simpl. rewrite Tt.
      rewrite (pushEntry_appends dir k (Entry sig text) Tk Ts Hd).
      rewrite (history_insert _ _ _ Tk), evict_drop.
      set (h := history dir k). clearbody h.
      assert (L : (length (h ++ [Entry sig text]) - MAX_SIGNATURES_PER_MODEL
                   <= length h)%nat).
      { rewrite length_app. simpl. unfold MAX_SIGNATURES_PER_MODEL. lia. }
      rewrite drop_app_le by exact L. apply last_snoc. }
    split; [exact Hl|].
    unfold getSignature. rewrite Hm, Hk. simpl.
    rewrite (getLatestEntry_history dir' k Tk), Hl. reflexivity.
Qed.

Lemma getSignature_content_gated_at_read_witness :
  let on := Config true false false true in
  let off := Config true false false false in
  let dir' := setSignature on ∅ (Io true true) "session-a" "claude-opus-4" "sig1"
                (Some "chain of thought") noOptions in
  getSignature off dir' true "session-b" "claude-opus-4" noOptions =
    Some (Entry "sig1" " ") /\
  getSignature on dir' true "session-b" "claude-opus-4" noOptions =
    Some (Entry "sig1" "chain of thought").
Proof.
  intros on off dir'. split.
  - apply (proj2 (getSignature_content_gated_at_read off ∅ "session-b" "claude-opus-4"
                    noOptions)
             on "session-a" noOptions "claude-opus-4" "sig1" "chain of thought");
      vm_compute; reflexivity.
  - apply (proj2 (getSignature_content_gated_at_read on ∅ "session-b" "claude-opus-4"
                    noOptions)
             on "session-a" noOptions "claude-opus-4" "sig1" "chain of thought");
      vm_compute; reflexivity.
Defined.

(** C9. The [sessionId] argument has no effect: with any two session
    identifiers and otherwise equal arguments, [setSignature] leaves the same
    cache directory and [getSignature] returns the same result. *)
Theorem sessionId_has_no_effect (cfg : config) (dir : cacheDir) (o : io)
    (session1 session2 model sig : string) (content : option string)
    (opts : options) :
  setSignature cfg dir o session1 model sig content opts =
  setSignature cfg dir o session2 model sig content opts /\
  (forall rd,
     getSignature cfg dir rd session1 model opts =
     getSignature cfg dir rd session2 model opts) /\
  (forall rd,
     getSignature cfg (setSignature cfg dir o session1 model sig content opts)
       rd session2 model opts =
     getSignature cfg (setSignature cfg dir o session1 model sig content opts)
       rd session1 model opts).
Proof. repeat split. Qed.

Lemma pushEntry_other_key (dir : cacheDir) (o : io) (modelKey : option string)
    (e : entry) (k' : string) :
  modelKey <> Some k' -> pushEntry dir o modelKey e !! k' = dir !! k'.
Proof.
  intros Hne. unfold pushEntry, writeModelCache.
  destruct (keyTruthy modelKey) as [k|] eqn:K; [|reflexivity].
  destruct (negb (truthy (signature e))); [reflexivity|].
  destruct (sameAsTail _ e); [reflexivity|].
  destruct (write_ok o); [|reflexivity].
  apply lookup_insert_ne. intros ->. apply Hne.
  unfold keyTruthy in K. destruct modelKey as [k|]; [|discriminate].
  destruct (truthy k); congruence.
Qed.

Lemma setSignature_other_key (cfg : config) (dir : cacheDir) (o : io)
    (sessionId model sig : string) (content : option string) (opts : options)
    (k' : string) :
  makeModelKey model <> Some k' ->
  setSignature cfg dir o sessionId model sig content opts !! k' = dir !! k'.
Proof.
  intros Hne. unfold setSignature.
  destruct (negb (truthy sig) || negb (truthy model)); [reflexivity|].
  destruct (negb (shouldCacheSignature _ _ _)); [reflexivity|].
  now apply pushEntry_other_key.
Qed.







(** ** Token store: the merge *)

Lemma plain_lookup (target : record) (field : string) :
  field <> "sessionId" -> plain target !! field = target !! field.
Proof. intros H. unfold plain. now apply lookup_delete_ne. Qed.

Lemma plain_sessionId (target : record) : plain target !! "sessionId" = None.
Proof. apply lookup_delete_eq. Qed.

(** The overlay keeps the identity key of the record it lands on. *)
Lemma overlay_refreshToken (target found : record) :
  sameRefreshToken target found ->
  refreshToken (plain target ∪ found) = refreshToken found.
Proof.
  unfold sameRefreshToken, refreshToken. intros H.
  rewrite lookup_union, plain_lookup by discriminate.
  rewrite <- H. now destruct (found !! "refresh_token").
Qed.

Lemma applyUpdate_length (allTokens : list record) (target : option record) :
  length (applyUpdate allTokens target) = length allTokens.
Proof.
  unfold applyUpdate. destruct target as [t|]; [|reflexivity].
  destruct (list_find _ _) as [[i found]|]; [|reflexivity].
  apply length_insert.
Qed.

Lemma applyUpdate_keys (allTokens : list record) (target : option record) :
  refreshToken <$> applyUpdate allTokens target = refreshToken <$> allTokens.
Proof.
  unfold applyUpdate. destruct target as [t|]; [|reflexivity].
  destruct (list_find _ _) as [[i found]|] eqn:F; [|reflexivity].
  apply list_find_Some in F as (Hi & Hsame & _).
  rewrite list_fmap_insert, (overlay_refreshToken _ _ Hsame).
  apply list_insert_id. now rewrite list_lookup_fmap, Hi.
Qed.

(** A target whose key matches the record at [i], and none before it,
    lands on [i]. *)
Lemma applyUpdate_matched (allTokens : list record) (target old : record) (i : nat) :
  allTokens !! i = Some old ->
  sameRefreshToken target old ->
  (forall j r, (j < i)%nat -> allTokens !! j = Some r -> ~ sameRefreshToken target r) ->
  applyUpdate allTokens (Some target) = <[i := plain target ∪ old]> allTokens.
Proof.
  intros Hi Hsame Hfirst. unfold applyUpdate.
  assert (F : list_find (sameRefreshToken target) allTokens = Some (i, old)).
  { apply list_find_Some. repeat split; eauto. }
  now rewrite F.
Qed.

(** A target whose key matches no record changes nothing. *)
Lemma applyUpdate_unmatched (allTokens : list record) (target : record) :
  (forall r, r ∈ allTokens -> ~ sameRefreshToken target r) ->
  applyUpdate allTokens (Some target) = allTokens.
Proof.
  intros Hno. unfold applyUpdate.
  assert (F : list_find (sameRefreshToken target) allTokens = None).
  { apply list_find_None, Forall_forall. exact Hno. }
  now rewrite F.
Qed.

(** A record whose key differs from the target's stays as it is. *)
Lemma applyUpdate_other (allTokens : list record) (target : option record)
    (j : nat) (r : record) :
  allTokens !! j = Some r ->
  (forall t, target = Some t -> ~ sameRefreshToken t r) ->
  applyUpdate allTokens target !! j = Some r.
Proof.
  intros Hj Hne. unfold applyUpdate. destruct target as [t|]; [|exact Hj].
  destruct (list_find _ _) as [[i found]|] eqn:F; [|exact Hj].
  apply list_find_Some in F as (Hi & Hsame & _).
  destruct (decide (i = j)) as [->|Hij].
  - rewrite Hj in Hi. inversion Hi; subst. destruct (Hne t eq_refl Hsame).
  - now rewrite list_lookup_insert_ne.
Qed.

Lemma mergeTokens_length (allTokens : list record)
    (activeTokens : list (option record)) (tokenToUpdate : option record) :
  length (mergeTokens allTokens activeTokens tokenToUpdate) = length allTokens.
Proof.
  unfold mergeTokens. destruct tokenToUpdate; [apply applyUpdate_length|].
  revert allTokens. induction activeTokens as [|a act IH]; intros l; [reflexivity|].
  simpl. now rewrite IH, applyUpdate_length.
Qed.

Lemma mergeTokens_keys (allTokens : list record)
    (activeTokens : list (option record)) (tokenToUpdate : option record) :
  refreshToken <$> mergeTokens allTokens activeTokens tokenToUpdate
  = refreshToken <$> allTokens.
Proof.
  unfold mergeTokens. destruct tokenToUpdate; [apply applyUpdate_keys|].
  revert allTokens. induction activeTokens as [|a act IH]; intros l; [reflexivity|].
  simpl. now rewrite IH, applyUpdate_keys.
Qed.

(** The records the merge may touch: those whose key some applied record
    carries. Every other record is left field for field as it was. *)
Lemma mergeTokens_frame (allTokens : list record)
    (activeTokens : list (option record)) (tokenToUpdate : option record)
    (j : nat) (r : record) :
  allTokens !! j = Some r ->
  (forall t, tokenToUpdate = Some t -> ~ sameRefreshToken t r) ->
  (tokenToUpdate = None ->
   forall t, Some t ∈ activeTokens -> ~ sameRefreshToken t r) ->
  mergeTokens allTokens activeTokens tokenToUpdate !! j = Some r.
Proof.
  intros Hj Hup Hact. unfold mergeTokens.
  destruct tokenToUpdate as [u|]; [now apply applyUpdate_other|].
  specialize (Hact eq_refl). clear Hup.
  revert allTokens Hj. induction activeTokens as [|a act IH]; intros l Hj; [exact Hj|].
  simpl. apply IH.
  - intros t Ht. apply Hact. now right.
  - apply applyUpdate_other; [exact Hj|].
    intros t ->. apply Hact. now left.
Qed.

(** ** Token store: the operations *)

(** Unfolds the store monad down to case distinctions on the state. *)
Ltac unfold_store :=
  unfold mergeActiveTokens, writeAll, readAll, getSalt, _ensureFileExists,
    generateSalt, fs_writeFile, fs_readFile, fs_access, nextOutcome,
    try_catch, bind, modify, get, ret, throw in *.

Ltac store_cases :=
  unfold_store; simpl in *;
  repeat (case_match; simpl in *; simplify_eq; try reflexivity; try congruence).

Section StoreFacts.

Variable salts : nat -> string.

Lemma ensureFileExists_salt (s : store) :
  _salt (_ensureFileExists salts s).2 = _salt s.
Proof. store_cases. Qed.

Lemma ensureFileExists_cache (s : store) :
  _cache (_ensureFileExists salts s).2 = _cache s /\
  _cacheTime (_ensureFileExists salts s).2 = _cacheTime s /\
  _cacheTTL (_ensureFileExists salts s).2 = _cacheTTL s.
Proof. store_cases; auto. Qed.

Lemma readAll_salt (now : Z) (s : store) :
  _salt (readAll salts now s).2 = _salt s.
Proof. store_cases. Qed.

(** With a salt in memory, [getSalt] returns it and touches nothing. *)
Lemma getSalt_cached (s : store) (v : string) :
  saltTruthy (_salt s) = Some v -> getSalt salts s = (Returned v, s).
Proof. intros H. unfold getSalt, bind, get, ret. now rewrite H. Qed.

Lemma saltTruthy_Some (o : option string) (v : string) :
  saltTruthy o = Some v -> o = Some v /\ truthy v = true.
Proof.
  unfold saltTruthy. destruct o as [w|]; [|discriminate].
  destruct (truthy w) eqn:T; [|discriminate]. intros [= ->]. auto.
Qed.

(** Every generated salt is a non-empty string. *)
Hypothesis salts_truthy : forall n, truthy (salts n) = true.

(** A [getSalt] that returns leaves the returned salt in memory. *)
Lemma getSalt_returned (s s' : store) (v : string) :
  getSalt salts s = (Returned v, s') -> saltTruthy (_salt s') = Some v.
Proof.
  destruct (saltTruthy (_salt s)) as [w|] eqn:E.
  - rewrite (getSalt_cached s w E). intros [= <- <-]. exact E.
  - unfold getSalt at 1. unfold bind at 1. unfold get at 1. rewrite E.
    intros H.
    assert (G : forall w, truthy w = true -> saltTruthy (Some w) = Some w).
    { intros w Hw. simpl. now rewrite Hw. }
    revert H. store_cases; intros; simplify_eq; simpl; apply G;
      try apply salts_truthy; try (apply negb_false_iff; assumption).
Qed.

Lemma writeAll_eq (now : Z) (tokens : option (list record)) (s : store) :
  writeAll salts now tokens s =
  match _ensureFileExists salts s with
  | (Returned _, s1) =>
      match getSalt salts s1 with
      | (Returned salt, s2) => persist now (default [] tokens) salt s2
      | (Thrown, s2) => (Thrown, s2)
      end
  | (Thrown, s1) => (Thrown, s1)
  end.
Proof.
  unfold writeAll, persist, bind.
  destruct (_ensureFileExists salts s) as [[[]|] s1]; [|reflexivity].
  destruct (getSalt salts s1) as [[salt|] s2]; reflexivity.
Qed.

(** [persist] returns exactly when its write succeeds, and then the file
    holds the document; it never touches the salt in memory. *)
Lemma persist_spec (now : Z) (normalized : list record) (salt : string) (s : store) :
  _salt (persist now normalized salt s).2 = _salt s /\
  match outcomes s with
  | false :: _ => (persist now normalized salt s).1 = Thrown
  | _ =>
      (persist now normalized salt s).1 = Returned tt /\
      file (persist now normalized salt s).2 = Some (Document salt (Tokens normalized)) /\
      _cache (persist now normalized salt s).2 = Some normalized
  end.
Proof.
  unfold persist, try_catch, bind, fs_writeFile, nextOutcome, modify, throw.
  destruct s as [c ct ttl sl f [|[] rest] d]; simpl; auto.
Qed.

Lemma persist_returned (now : Z) (normalized : list record) (salt : string)
    (s s' : store) :
  persist now normalized salt s = (Returned tt, s') ->
  file s' = Some (Document salt (Tokens normalized)) /\ _cache s' = Some normalized.
Proof.
  intros H. destruct (persist_spec now normalized salt s) as [_ P].
  rewrite H in P. simpl in P.
  destruct (outcomes s) as [|[] rest]; try tauto. discriminate.
Qed.

(** With a salt in memory, [writeAll] keeps it, and a [writeAll] that
    returns has written it into the document. *)
Lemma writeAll_with_salt (now : Z) (tokens : option (list record))
    (s : store) (v : string) :
  saltTruthy (_salt s) = Some v ->
  saltTruthy (_salt (writeAll salts now tokens s).2) = Some v /\
  (forall s', writeAll salts now tokens s = (Returned tt, s') ->
     file s' = Some (Document v (Tokens (default [] tokens)))).
Proof.
  intros Hv. rewrite writeAll_eq.
  pose proof (ensureFileExists_salt s) as Hs.
  destruct (_ensureFileExists salts s) as [[[]|] s1]; simpl in Hs.
  - rewrite <- Hs in Hv. rewrite (getSalt_cached s1 v Hv).
    destruct (persist_spec now (default [] tokens) v s1) as [P _].
    split; [now rewrite P|].
    intros s' H. now apply persist_returned in H.
  - simpl. rewrite Hs. split; [exact Hv | intros s' [=]].
Qed.

Lemma perform_keeps_salt (s : store) (op : operation) (v : string) :
  saltTruthy (_salt s) = Some v -> saltTruthy (_salt (perform salts s op)) = Some v.
Proof.
  intros Hv. destruct op as [|now|now tokens|now act upd]; simpl.
  - now rewrite (getSalt_cached s v Hv).
  - now rewrite readAll_salt.
  - now apply writeAll_with_salt.
  - unfold mergeActiveTokens, bind.
    pose proof (readAll_salt now s) as Hs.
    destruct (readAll salts now s) as [[all|] s1]; simpl in Hs.
    + apply writeAll_with_salt. now rewrite Hs.
    + simpl. now rewrite Hs.
Qed.

Lemma performs_keep_salt (ops : list operation) (s : store) (v : string) :
  saltTruthy (_salt s) = Some v ->
  saltTruthy (_salt (foldl (perform salts) s ops)) = Some v.
Proof.
  revert s. induction ops as [|op ops IH]; intros s Hv; [exact Hv|].
  simpl. apply IH. now apply perform_keeps_salt.
Qed.

Lemma mergeActiveTokens_eq (now : Z) (activeTokens : list (option record))
    (tokenToUpdate : option record) (s : store) :
  mergeActiveTokens salts now activeTokens tokenToUpdate s =
  match readAll salts now s with
  | (Returned allTokens, s1) =>
      writeAll salts now (Some (mergeTokens allTokens activeTokens tokenToUpdate)) s1
  | (Thrown, s1) => (Thrown, s1)
  end.
Proof.
  unfold mergeActiveTokens, bind.
  destruct (readAll salts now s) as [[all|] s1]; reflexivity.
Qed.

(** A [writeAll] that returns has written its records. *)
Lemma writeAll_returned (now : Z) (tokens : option (list record)) (s s' : store) :
  writeAll salts now tokens s = (Returned tt, s') ->
  exists salt,
    file s' = Some (Document salt (Tokens (default [] tokens))) /\
    _cache s' = Some (default [] tokens).
Proof.
  rewrite writeAll_eq.
  destruct (_ensureFileExists salts s) as [[[]|] s1]; [|discriminate].
  destruct (getSalt salts s1) as [[salt|] s2]; [|discriminate].
  intros H. exists salt. now apply persist_returned in H.
Qed.

(** Without I/O failure [writeAll] returns. *)
Lemma writeAll_returns_without_failures (now : Z) (tokens : option (list record))
    (s : store) :
  outcomes s = [] -> (writeAll salts now tokens s).1 = Returned tt.
Proof.
  intros H. destruct s as [c ct ttl sl f o d]. simpl in H. subst o.
  store_cases.
Qed.

Lemma readAll_eq (now : Z) (s : store) :
  readAll salts now s =
  if _isCacheValid now s then (Returned (default [] (_cache s)), s)
  else
    match _ensureFileExists salts s with
    | (Returned _, s1) =>
        let read := fs_readFile s1 in
        (Returned (recordsRead read.1),
         set_cacheTime now (set_cache (recordsRead read.1) read.2))
    | (Thrown, s1) => (Thrown, s1)
    end.
Proof.
  unfold readAll. unfold bind at 1. unfold get at 1.
  destruct (_isCacheValid now s); [reflexivity|].
  unfold bind at 1.
  destruct (_ensureFileExists salts s) as [[[]|] s1]; [|reflexivity].
  unfold bind, try_catch, modify, get, ret, throw.
  destruct (fs_readFile s1) as [[[|records|salt [| |records]]|] s2]; reflexivity.
Qed.

(** An intact document is read back as it is when no I/O call fails. *)
Lemma readAll_intact (now : Z) (s : store) (salt : string) (disk : list record) :
  _isCacheValid now s = false ->
  file s = Some (Document salt (Tokens disk)) ->
  outcomes s = [] ->
  exists s1, readAll salts now s = (Returned disk, s1) /\ outcomes s1 = [].
Proof.
  intros V F O. rewrite readAll_eq, V.
  destruct s as [c ct ttl sl f o d]. simpl in F, O. subst f o.
  eexists. split; reflexivity.
Qed.

(** The whole read-modify-write on an intact document, no I/O call failing:
    it returns, and the file then holds the merged records. *)
Lemma mergeActiveTokens_intact (now : Z) (s : store) (salt : string)
    (disk : list record) (activeTokens : list (option record))
    (tokenToUpdate : option record) :
  _isCacheValid now s = false ->
  file s = Some (Document salt (Tokens disk)) ->
  outcomes s = [] ->
  exists s2 salt',
    mergeActiveTokens salts now activeTokens tokenToUpdate s = (Returned tt, s2) /\
    file s2 = Some (Document salt' (Tokens (mergeTokens disk activeTokens tokenToUpdate))).
Proof.
  intros V F O.
  destruct (readAll_intact now s salt disk V F O) as (s1 & R & O1).
  rewrite mergeActiveTokens_eq, R.
  pose proof (writeAll_returns_without_failures now
                (Some (mergeTokens disk activeTokens tokenToUpdate)) s1 O1) as W.
  destruct (writeAll salts now _ s1) as [[[]|] s2] eqn:E; [|discriminate].
  apply writeAll_returned in E as (salt' & F' & _). eauto.
Qed.

(** C3, as the code has it. Once a [getSalt] has returned a salt, that salt
    stays for the life of the store object: after any sequence of later
    calls ([getSalt], [readAll], [writeAll], [mergeActiveTokens]), returned
    or thrown and whatever the outcomes of their file-system calls, [getSalt]
    returns the same salt without touching anything, and a [writeAll] or
    [mergeActiveTokens] that returns has written a document carrying it. *)
Theorem getSalt_stable_after_first_call (s s1 : store) (v : string)
    (ops : list operation) :
  getSalt salts s = (Returned v, s1) ->
  let later := foldl (perform salts) s1 ops in
  getSalt salts later = (Returned v, later) /\
  (forall now tokens s',
     writeAll salts now tokens later = (Returned tt, s') ->
     file s' = Some (Document v (Tokens (default [] tokens)))) /\
  (forall now activeTokens tokenToUpdate s',
     mergeActiveTokens salts now activeTokens tokenToUpdate later = (Returned tt, s') ->
     exists records, file s' = Some (Document v (Tokens records))).
Proof.
  intros H later.
  assert (L : saltTruthy (_salt later) = Some v).
  { apply performs_keep_salt. exact (getSalt_returned s s1 v H). }
  split; [now apply getSalt_cached|]. split.
  - intros now tokens s' W. now apply (writeAll_with_salt now tokens later v L).
  - intros now act upd s' W. rewrite mergeActiveTokens_eq in W.
    pose proof (readAll_salt now later) as Hs.
    destruct (readAll salts now later) as [[all|] s2]; [|discriminate].
    simpl in Hs. rewrite <- Hs in L.
    eexists. exact (proj2 (writeAll_with_salt now _ s2 v L) s' W).
Qed.

(** C4. Let an active record share its identity key ([refresh_token]) with
    one of the records [readAll] yields. Then the merge, called with that one
    active record (in [activeTokens] or as [tokenToUpdate]), replaces one
    record, the first carrying the key (the only one when keys are unique), by
    that record overlaid with the fields of the active record other than
    [sessionId]; every other record is kept field for field, and so is the
    length. A [mergeActiveTokens] that returns has written exactly these
    records, and without I/O failure it returns. *)
Theorem mergeActiveTokens_overlays_matching_record
    (disk : list record) (active shared : record) :
  shared ∈ disk ->
  sameRefreshToken active shared ->
  let merged := mergeTokens disk [Some active] None in
  exists i old,
    disk !! i = Some old /\
    sameRefreshToken active old /\
    (forall j r, (j < i)%nat -> disk !! j = Some r -> ~ sameRefreshToken active r) /\
    ((forall r, r ∈ disk -> sameRefreshToken active r -> r = shared) -> old = shared) /\
    merged !! i = Some (delete "sessionId" active ∪ old) /\
    (forall field, field <> "sessionId" ->
       (delete "sessionId" active ∪ old) !! field =
         match active !! field with
         | Some value => Some value
         | None => old !! field
         end) /\
    (delete "sessionId" active ∪ old) !! "sessionId" = old !! "sessionId" /\
    (forall j, j <> i -> merged !! j = disk !! j) /\
    length merged = length disk /\
    (forall others, mergeTokens disk others (Some active) = merged) /\
    (forall now s s1,
       readAll salts now s = (Returned disk, s1) ->
       (forall s2,
          mergeActiveTokens salts now [Some active] None s = (Returned tt, s2) ->
          exists salt, file s2 = Some (Document salt (Tokens merged))) /\
       (outcomes s1 = [] ->
          (mergeActiveTokens salts now [Some active] None s).1 = Returned tt)) /\
    (forall now s salt,
       _isCacheValid now s = false ->
       file s = Some (Document salt (Tokens disk)) ->
       outcomes s = [] ->
       exists s2 salt',
         mergeActiveTokens salts now [Some active] None s = (Returned tt, s2) /\
         file s2 = Some (Document salt' (Tokens merged))).
Proof.
  intros Hin Hshared merged.
  destruct (list_find_elem_of (sameRefreshToken active) disk shared Hin Hshared)
    as [[i old] F].
  apply list_find_Some in F as (Hi & Hsame & Hfirst).
  assert (Hfirst' : forall j r, (j < i)%nat -> disk !! j = Some r ->
                      ~ sameRefreshToken active r) by eauto.
  assert (E : merged = <[i := plain active ∪ old]> disk).
  { subst merged. unfold mergeTokens. simpl.
    now apply applyUpdate_matched. }
  assert (Hlt : (i < length disk)%nat) by (eapply lookup_lt_Some; eauto).
  exists i, old.
  split; [exact Hi|]. split; [exact Hsame|]. split; [exact Hfirst'|].
  split; [|split; [|split; [|split; [|split; [|split; [|split; [|split]]]]]]].
  - intros Huniq. apply Huniq; [|exact Hsame].
    apply list_elem_of_lookup. eauto.
  - rewrite E. now apply list_lookup_insert_eq.
  - intros field Hf. rewrite lookup_union, lookup_delete_ne by congruence.
    now destruct (active !! field), (old !! field).
  - rewrite lookup_union, lookup_delete_eq. now destruct (old !! "sessionId").
  - intros j Hj. rewrite E. now apply list_lookup_insert_ne.
  - rewrite E. apply length_insert.
  - intros others. rewrite E. unfold mergeTokens. now apply applyUpdate_matched.
  - intros now s s1 R. split.
    + intros s2 W. rewrite mergeActiveTokens_eq, R in W.
      apply writeAll_returned in W as (salt & F & _). eauto.
    + intros O. rewrite mergeActiveTokens_eq, R.
      now apply writeAll_returns_without_failures.
  - intros now s salt V F O. now apply (mergeActiveTokens_intact now s salt).
Qed.

(** C10. The merge neither inserts nor removes: whatever the active records,
    the merged sequence has the length of the one read and the same identity
    keys in the same order; an active record whose key matches no record is
    dropped without effect; a record whose key no applied record carries is
    kept as it is; a [mergeActiveTokens] that returns has written exactly
    the merged sequence, and on an intact document with no I/O call failing
    it does return. *)
Theorem mergeActiveTokens_keeps_length_and_keys
    (disk : list record) (activeTokens : list (option record))
    (tokenToUpdate : option record) :
  let merged := mergeTokens disk activeTokens tokenToUpdate in
  length merged = length disk /\
  refreshToken <$> merged = refreshToken <$> disk /\
  (forall target,
     (forall r, r ∈ disk -> ~ sameRefreshToken target r) ->
     mergeTokens disk [Some target] None = disk /\
     mergeTokens disk activeTokens (Some target) = disk) /\
  (forall j r,
     disk !! j = Some r ->
     (forall t, tokenToUpdate = Some t -> ~ sameRefreshToken t r) ->
     (tokenToUpdate = None ->
      forall t, Some t ∈ activeTokens -> ~ sameRefreshToken t r) ->
     merged !! j = Some r) /\
  (forall now s s1 s2,
     readAll salts now s = (Returned disk, s1) ->
     mergeActiveTokens salts now activeTokens tokenToUpdate s = (Returned tt, s2) ->
     exists salt, file s2 = Some (Document salt (Tokens merged))) /\
  (forall now s salt,
     _isCacheValid now s = false ->
     file s = Some (Document salt (Tokens disk)) ->
     outcomes s = [] ->
     exists s2 salt',
       mergeActiveTokens salts now activeTokens tokenToUpdate s = (Returned tt, s2) /\
       file s2 = Some (Document salt' (Tokens merged))).
Proof.
  intros merged. split; [apply mergeTokens_length|].
  split; [apply mergeTokens_keys|]. split; [|split; [|split]].
  - intros target Hno. unfold mergeTokens. simpl.
    split; now apply applyUpdate_unmatched.
  - intros j r Hj Hup Hact. now apply mergeTokens_frame.
  - intros now s s1 s2 R W. rewrite mergeActiveTokens_eq, R in W.
    apply writeAll_returned in W as (salt & F & _). eauto.
  - intros now s salt V F O. now apply (mergeActiveTokens_intact now s salt).
Qed.

(** [_ensureFileExists] throws exactly when the access fails (no file, or
    the call fails) and the write of the initial document fails too. *)
Lemma ensureFileExists_thrown (s : store) :
  (_ensureFileExists salts s).1 = Thrown <->
  exists accessOk rest,
    outcomes s = accessOk :: false :: rest /\ (file s = None \/ accessOk = false).
Proof.
  destruct s as [c ct ttl sl f o d].
  unfold _ensureFileExists, try_catch, fs_access, fs_writeFile, generateSalt,
    nextOutcome, bind, modify, get, ret, throw. simpl.
  destruct o as [|o1 [|o2 rest]]; destruct f as [doc|]; simpl;
    try destruct o1; try destruct o2; simpl;
    (split; [try discriminate; intros _; eauto | intros (a & r & E & C)]);
    try reflexivity; simplify_eq; destruct C; congruence.
Qed.

(** A missing file that can be created reads as the empty sequence. *)
Lemma readAll_creates_missing_file (now : Z) (s s1 : store) :
  file s = None ->
  _isCacheValid now s = false ->
  _ensureFileExists salts s = (Returned tt, s1) ->
  (readAll salts now s).1 = Returned [].
Proof.
  intros F V E. rewrite readAll_eq, V, E. simpl.
  destruct s as [c ct ttl sl f o d]. simpl in F. subst f.
  assert (R : file s1 = Some (Document (salts d) (Tokens []))).
  { revert E.
    unfold _ensureFileExists, try_catch, fs_access, fs_writeFile, generateSalt,
      nextOutcome, bind, modify, get, ret, throw. simpl.
    destruct o as [|o1 [|o2 rest]]; simpl; try destruct o1; try destruct o2;
      simpl; intros [=]; subst; reflexivity. }
  unfold fs_readFile, nextOutcome, bind, get, ret, throw.
  destruct s1 as [c1 ct1 ttl1 sl1 f1 [|[] rest1] d1]; simpl in *; subst f1;
    reflexivity.
Qed.

(** C8, as the code has it. [readAll] with a valid cache returns the cache.
    Past the cache, once the file exists or has been created, [readAll]
    returns what the read yields, and the empty sequence when the read
    fails, the text is malformed or the document has the wrong shape; a
    missing file that can be created yields the empty sequence too.
    [readAll] throws exactly when [_ensureFileExists] does, that is when the
    file is missing or inaccessible and cannot be created. [writeAll]
    rethrows the failure of its write, and returns only with the document
    written. *)
Theorem readAll_guarded_writeAll_rethrows (now : Z) (s : store) :
  (_isCacheValid now s = true ->
     readAll salts now s = (Returned (default [] (_cache s)), s)) /\
  (_isCacheValid now s = false ->
   forall s1, _ensureFileExists salts s = (Returned tt, s1) ->
     (readAll salts now s).1 = Returned (recordsRead (fs_readFile s1).1) /\
     ((fs_readFile s1).1 = Thrown \/
      (fs_readFile s1).1 = Returned Malformed \/
      (exists salt, (fs_readFile s1).1 = Returned (Document salt NoTokens)) \/
      (exists salt, (fs_readFile s1).1 = Returned (Document salt NotAnArray)) ->
      (readAll salts now s).1 = Returned []) /\
     (file s = None -> (readAll salts now s).1 = Returned [])) /\
  ((readAll salts now s).1 = Thrown <->
     _isCacheValid now s = false /\
     exists accessOk rest,
       outcomes s = accessOk :: false :: rest /\
       (file s = None \/ accessOk = false)) /\
  (forall tokens s1 salt s2 rest,
     _ensureFileExists salts s = (Returned tt, s1) ->
     getSalt salts s1 = (Returned salt, s2) ->
     outcomes s2 = false :: rest ->
     (writeAll salts now tokens s).1 = Thrown) /\
  (forall tokens s',
     writeAll salts now tokens s = (Returned tt, s') ->
     exists salt, file s' = Some (Document salt (Tokens (default [] tokens)))).
Proof.
  split; [|split; [|split; [|split]]].
  - intros V. now rewrite readAll_eq, V.
  - intros V s1 E. split; [|split].
    + now rewrite readAll_eq, V, E.
    + rewrite readAll_eq, V, E. simpl.
      intros [R|[R|[[salt R]|[salt R]]]]; now rewrite R.
    + intros F. now apply (readAll_creates_missing_file now s s1).
  - rewrite <- ensureFileExists_thrown.
    rewrite readAll_eq. destruct (_isCacheValid now s); simpl.
    + split; [discriminate | intros [? _]; discriminate].
    + destruct (_ensureFileExists salts s) as [[[]|] s1]; simpl.
      * split; [discriminate | intros [_ ?]; discriminate].
      * split; auto.
  - intros tokens s1 salt s2 rest E G O. rewrite writeAll_eq, E, G.
    destruct (persist_spec now (default [] tokens) salt s2) as [_ P].
    now rewrite O in P.
  - intros tokens s' W. apply writeAll_returned in W as (salt & F & _). eauto.
Qed.

End StoreFacts.

(** *** Concrete runs *)

Lemma getSalt_stable_after_first_call_witness :
  let s := freshStore None [true; true; true; false; true; false] in
  let s1 := (getSalt oneSalt s).2 in
  let later :=
    foldl (perform oneSalt) s1
      [CallReadAll 10; CallWriteAll 20 (Some []); CallGetSalt;
       CallMergeActiveTokens 30 [] None] in
  getSalt oneSalt s = (Returned "3f9c2a7d", s1) /\
  getSalt oneSalt later = (Returned "3f9c2a7d", later).
Proof.
  intros s s1 later.
  assert (H : getSalt oneSalt s = (Returned "3f9c2a7d", s1)) by (vm_compute; reflexivity).
  split; [exact H|].
  apply (getSalt_stable_after_first_call oneSalt (fun _ => eq_refl) s s1 "3f9c2a7d" _ H).
Defined.

(** C3 as stated fails: the salt of an installation is replaced. The file
    holds the salt of the installation; the first [getSalt] of a new process
    meets a failing read, generates another salt and returns it; the next
    [writeAll] stores that one in place of the installation's. *)
Lemma salt_rotated_after_failed_read_counterexample :
  let installed := Document "installed-salt" (Tokens []) in
  let s := freshStore (Some installed) [true; false] in
  let s1 := (getSalt oneSalt s).2 in
  let s2 := (writeAll oneSalt 10 (Some []) s1).2 in
  getSalt oneSalt s = (Returned "3f9c2a7d", s1) /\
  file s1 = Some installed /\
  writeAll oneSalt 10 (Some []) s1 = (Returned tt, s2) /\
  file s2 = Some (Document "3f9c2a7d" (Tokens [])) /\
  file s2 <> file s1.
Proof. vm_compute. repeat split. discriminate. Qed.

Lemma mergeActiveTokens_overlays_matching_record_witness :
  recordA ∈ [recordB; recordA] /\
  sameRefreshToken recordA' recordA /\
  let merged := mergeTokens [recordB; recordA] [Some recordA'] None in
  exists i old,
    [recordB; recordA] !! i = Some old /\
    old = recordA /\
    merged !! i = Some (delete "sessionId" recordA' ∪ old) /\
    (forall j, j <> i -> merged !! j = [recordB; recordA] !! j) /\
    length merged = 2%nat.
Proof.
  assert (Hin : recordA ∈ [recordB; recordA]) by (right; left).
  assert (Hsame : sameRefreshToken recordA' recordA)
    by (unfold sameRefreshToken; vm_compute; reflexivity).
  split; [exact Hin|]. split; [exact Hsame|].
  destruct (mergeActiveTokens_overlays_matching_record oneSalt
              [recordB; recordA] recordA' recordA Hin Hsame)
    as (i & old & Hi & _ & _ & Huniq & Hm & _ & _ & Hother & Hlen & _).
  exists i, old. split; [exact Hi|]. split; [|auto].
  apply Huniq. intros r Hr Hk.
  apply list_elem_of_In in Hr. simpl in Hr.
  destruct Hr as [<-|[<-|[]]]; [|reflexivity].
  unfold sameRefreshToken in Hk. vm_compute in Hk. discriminate.
Defined.

Lemma mergeActiveTokens_keeps_length_and_keys_witness :
  mergeTokens [recordB; recordA] [Some recordC] None = [recordB; recordA] /\
  length (mergeTokens [recordB; recordA] [Some recordC; Some recordA'] None) = 2%nat.
Proof.
  split.
  - apply (mergeActiveTokens_keeps_length_and_keys oneSalt
             [recordB; recordA] [Some recordC] None).
    intros r Hr Hsame. unfold sameRefreshToken in Hsame.
    apply list_elem_of_In in Hr. simpl in Hr.
    destruct Hr as [<-|[<-|[]]]; vm_compute in Hsame; discriminate.
  - apply (mergeActiveTokens_keeps_length_and_keys oneSalt
             [recordB; recordA] [Some recordC; Some recordA'] None).
Defined.

Lemma readAll_guarded_writeAll_rethrows_witness :
  (readAll oneSalt 10 (freshStore (Some Malformed) [])).1 = Returned [] /\
  (readAll oneSalt 10 (freshStore None [])).1 = Returned [] /\
  (writeAll oneSalt 10 (Some [recordA]) (freshStore (Some (Document "s" (Tokens []))) [true; true; true; false])).1
    = Thrown.
Proof.
  split; [|split].
  - destruct (readAll_guarded_writeAll_rethrows oneSalt 10
                (freshStore (Some Malformed) [])) as (_ & H & _).
    destruct (H eq_refl _ eq_refl) as (_ & H' & _).
    apply H'. right; left; reflexivity.
  - destruct (readAll_guarded_writeAll_rethrows oneSalt 10
                (freshStore None [])) as (_ & H & _).
    destruct (H eq_refl _ eq_refl) as (_ & _ & H'). now apply H'.
  - destruct (readAll_guarded_writeAll_rethrows oneSalt 10
                (freshStore (Some (Document "s" (Tokens []))) [true; true; true; false]))
      as (_ & _ & _ & H & _).
    eapply H; vm_compute; reflexivity.
Defined.

(** C8 as stated fails for a missing file: when the file is missing and
    cannot be created, [readAll] throws. *)
Lemma readAll_throws_counterexample :
  ~ (forall (now : Z) (s : store),
       exists records s', readAll oneSalt now s = (Returned records, s')).
Proof.
  intros H. destruct (H 10 (freshStore None [true; false])) as (records & s' & E).
  vm_compute in E. discriminate.
Qed.


(** * Further properties *)

(** ** Cooldown registry: the other operations *)

Lemma getCooldownUntil_ahead (t : Z) (tokenId modelId : string) (m : manager) :
  getCooldownUntil t tokenId modelId m =
  if truthy tokenId
  then ahead t (deadline (cooldowns m) tokenId (getGroupKey modelId))
  else None.
Proof.
  unfold getCooldownUntil, deadline, ahead.
  destruct (truthy tokenId); simpl; [|reflexivity].
  destruct (cooldowns m !! tokenId) as [g|]; [|reflexivity].
  destruct (g !! getGroupKey modelId) as [[u|]|]; try reflexivity.
  destruct (u =? 0); simpl; [reflexivity|]. now destruct (u <=? t).
Qed.

Lemma isAvailable_answer (t : Z) (wr : bool) (tokenId modelId : string) (m : manager) :
  (isAvailable t wr tokenId modelId m).1 =
  match getCooldownUntil t tokenId modelId m with
  | Some _ => false
  | None => true
  end.
Proof.
  unfold isAvailable, getCooldownUntil.
  destruct (truthy tokenId); simpl; [|reflexivity].
  destruct (cooldowns m !! tokenId) as [g|]; [|reflexivity].
  destruct (g !! getGroupKey modelId) as [[u|]|]; try reflexivity.
  destruct (u =? 0); [reflexivity|]. now destruct (u <=? t).
Qed.

(** Writing one entry of one credential leaves every other entry alone. *)
Lemma deadline_update (cds : gmap string groupMap) (tokenId groupKey : string)
    (v : option Z) (tokenId' groupKey' : string) :
  let g := match cds !! tokenId with Some g => g | None => ∅ end in
  deadline (<[tokenId := <[groupKey := v]> g]> cds) tokenId' groupKey' =
  if decide (tokenId' = tokenId /\ groupKey' = groupKey) then v
  else deadline cds tokenId' groupKey'.
Proof.
  intros g. unfold deadline.
  destruct (decide (tokenId' = tokenId)) as [->|Ht].
  - rewrite lookup_insert_eq. destruct (decide (groupKey' = groupKey)) as [->|Hk].
    + rewrite lookup_insert_eq. rewrite decide_True by auto. now destruct v.
    + rewrite lookup_insert_ne by auto. rewrite decide_False by tauto.
      subst g. destruct (cds !! tokenId); [reflexivity|]. now rewrite lookup_empty.
  - rewrite lookup_insert_ne by auto. rewrite decide_False by tauto. reflexivity.
Qed.

Lemma setCooldown_deadline (now : Z) (wr : bool) (tokenId modelId : string)
    (until : Z) (m : manager) (tokenId' groupKey' : string) :
  deadline (cooldowns (setCooldown now wr tokenId modelId until m)) tokenId' groupKey' =
  if truthy tokenId && negb (until =? 0) &&
     bool_decide (tokenId' = tokenId /\ groupKey' = getGroupKey modelId)
  then Some until
  else deadline (cooldowns m) tokenId' groupKey'.
Proof.
  unfold setCooldown. destruct (truthy tokenId); simpl; [|reflexivity].
  destruct (until =? 0); simpl; [reflexivity|].
  rewrite saveToFile_cooldowns. simpl. rewrite deadline_update.
  case_decide as H;
    [rewrite bool_decide_eq_true_2 by exact H
    |rewrite bool_decide_eq_false_2 by exact H]; reflexivity.
Qed.

(** X1. A cooldown is scoped to one credential and one model family: it
    changes no answer for another credential or for a model of another
    family, and it holds for every model of the same family. *)
Theorem setCooldown_scoped_to_credential_and_family (now : Z) (wr : bool)
    (tokenId modelId : string) (until : Z) (m : manager) :
  let m' := setCooldown now wr tokenId modelId until m in
  (forall t tokenId' modelId',
     tokenId' <> tokenId \/ getGroupKey modelId' <> getGroupKey modelId ->
     getCooldownUntil t tokenId' modelId' m' = getCooldownUntil t tokenId' modelId' m /\
     (isAvailable t wr tokenId' modelId' m').1 = (isAvailable t wr tokenId' modelId' m).1) /\
  (truthy tokenId = true -> until <> 0 ->
   forall t modelId',
     getGroupKey modelId' = getGroupKey modelId ->
     getCooldownUntil t tokenId modelId' m' = (if until <=? t then None else Some until)).
Proof.
  intros m'. split.
  - intros t tokenId' modelId' Hne.
    assert (E : getCooldownUntil t tokenId' modelId' m' =
                getCooldownUntil t tokenId' modelId' m).
    { rewrite !getCooldownUntil_ahead. subst m'. rewrite setCooldown_deadline.
      rewrite bool_decide_eq_false_2 by tauto. now rewrite andb_false_r. }
    split; [exact E|]. now rewrite !isAvailable_answer, E.
  - intros Ht Hu t modelId' Hk.
    rewrite getCooldownUntil_ahead, Ht. subst m'. rewrite setCooldown_deadline, Ht.
    apply Z.eqb_neq in Hu. rewrite Hu. simpl.
    rewrite bool_decide_eq_true_2 by auto. simpl. now rewrite Hu.
Qed.

Lemma setCooldown_scoped_to_credential_and_family_witness :
  let m' := setCooldown 1000 true "t1" "claude-3-opus" 3601000 (Manager ∅ ∅) in
  (isAvailable 2000 true "t1" "gemini-pro" m').1 = true /\
  (isAvailable 2000 true "t2" "claude-3-opus" m').1 = true /\
  getCooldownUntil 2000 "t1" "claude-sonnet-4" m' = Some 3601000.
Proof.
  intros m'. subst m'.
  destruct (setCooldown_scoped_to_credential_and_family 1000 true "t1"
              "claude-3-opus" 3601000 (Manager ∅ ∅)) as [Hframe Hshare].
  split; [|split].
  - destruct (Hframe 2000 "t1" "gemini-pro") as [_ ->]; [right; discriminate|reflexivity].
  - destruct (Hframe 2000 "t2" "claude-3-opus") as [_ ->]; [left; discriminate|reflexivity].
  - apply (Hshare eq_refl); [discriminate | reflexivity].
Defined.

(** X2. The two checks agree: [isAvailable] answers [true] exactly when
    [getCooldownUntil] reports no deadline, at every instant and in every
    state. *)
Theorem isAvailable_iff_no_deadline (t : Z) (wr : bool) (tokenId modelId : string)
    (m : manager) :
  (isAvailable t wr tokenId modelId m).1 = true <->
  getCooldownUntil t tokenId modelId m = None.
Proof.
  rewrite isAvailable_answer.
  destruct (getCooldownUntil t tokenId modelId m); split; congruence.
Qed.

Lemma ahead_healed (now t until : Z) :
  now <= t -> negb (until =? 0) && (until <=? now) = true ->
  ahead t (Some until) = None.
Proof.
  intros Hle H. apply andb_true_iff in H as [H0 H1].
  apply negb_true_iff in H0. apply Z.leb_le in H1. unfold ahead. rewrite H0. simpl.
  assert (E : (until <=? t) = true) by (apply Z.leb_le; lia). now rewrite E.
Qed.

(** A check either leaves the manager as it is, or has met an expired
    entry, which it clears. *)
Lemma isAvailable_state (now : Z) (wr : bool) (tokenId modelId : string)
    (m : manager) :
  (forall wr', (isAvailable now wr' tokenId modelId m).2 = m) \/
  exists g until,
    truthy tokenId = true /\
    cooldowns m !! tokenId = Some g /\
    g !! getGroupKey modelId = Some (Some until) /\
    negb (until =? 0) && (until <=? now) = true /\
    isAvailable now wr tokenId modelId m =
      (true,
       saveToFile now wr
         {| cooldowns :=
              <[tokenId := <[getGroupKey modelId := None]> g]> (cooldowns m);
            persisted := persisted m |}).
Proof.
  unfold isAvailable.
  destruct (truthy tokenId) eqn:Ht; simpl; [|now left].
  destruct (cooldowns m !! tokenId) as [g|] eqn:Hg; [|now left].
  destruct (g !! getGroupKey modelId) as [[u|]|] eqn:Hk; try (now left).
  destruct (u =? 0) eqn:H0; [now left|].
  destruct (u <=? now) eqn:Hu; [|now left].
  right. exists g, u. rewrite H0, Hu. auto.
Qed.

(** X3. The write a check performs is invisible to later checks: clearing an
    expired entry changes no answer at that instant or later, for any
    credential and model; a check that answers [false] changes nothing; and
    a check repeated at the same instant changes nothing more. *)
Theorem isAvailable_healing_is_unobservable (now : Z) (wr : bool)
    (tokenId modelId : string) (m : manager) :
  let m' := (isAvailable now wr tokenId modelId m).2 in
  (forall t tokenId' modelId', now <= t ->
     getCooldownUntil t tokenId' modelId' m' = getCooldownUntil t tokenId' modelId' m) /\
  ((isAvailable now wr tokenId modelId m).1 = false -> m' = m) /\
  (forall wr', (isAvailable now wr' tokenId modelId m').2 = m').
Proof.
  intros m'. subst m'.
  destruct (isAvailable_state now wr tokenId modelId m)
    as [E|(g & u & Ht & Hg & Hk & Hexp & E)].
  - rewrite (E wr). split; [reflexivity|]. split; [reflexivity | exact E].
  - rewrite E. simpl. split; [|split; [discriminate|]].
    + intros t tokenId' modelId' Hle. rewrite !getCooldownUntil_ahead.
      destruct (truthy tokenId'); [|reflexivity].
      rewrite saveToFile_cooldowns. simpl.
      pose proof (deadline_update (cooldowns m) tokenId (getGroupKey modelId) None
                    tokenId' (getGroupKey modelId')) as D.
      rewrite Hg in D. simpl in D. rewrite D. case_decide as C; [|reflexivity].
      destruct C as [-> ->]. unfold deadline. rewrite Hg, Hk. symmetry.
      now apply (ahead_healed now).
    + intros wr'. unfold isAvailable. rewrite Ht. simpl.
      rewrite saveToFile_cooldowns. simpl. now rewrite !lookup_insert_eq.
Qed.

Lemma clearCooldown_deadline (now : Z) (wr : bool) (tokenId modelId : string)
    (m : manager) (tokenId' groupKey' : string) :
  deadline (cooldowns (clearCooldown now wr tokenId modelId m)) tokenId' groupKey' =
  if truthy tokenId &&
     bool_decide (tokenId' = tokenId /\ groupKey' = getGroupKey modelId)
  then None
  else deadline (cooldowns m) tokenId' groupKey'.
Proof.
  unfold clearCooldown. destruct (truthy tokenId); simpl; [|reflexivity].
  case_bool_decide as E.
  - destruct E as [-> ->].
    destruct (cooldowns m !! tokenId) as [g|] eqn:Hg;
      [|unfold deadline; now rewrite Hg].
    destruct (g !! getGroupKey modelId) as [[u|]|] eqn:Hk;
      try (unfold deadline; now rewrite Hg, Hk).
    rewrite saveToFile_cooldowns. simpl.
    unfold deadline. now rewrite !lookup_insert_eq.
  - destruct (cooldowns m !! tokenId) as [g|] eqn:Hg; [|reflexivity].
    destruct (g !! getGroupKey modelId) as [[u|]|] eqn:Hk; try reflexivity.
    rewrite saveToFile_cooldowns. simpl.
    pose proof (deadline_update (cooldowns m) tokenId (getGroupKey modelId) None
                  tokenId' groupKey') as D.
    rewrite Hg in D. simpl in D. rewrite D. now rewrite decide_False by exact E.
Qed.

(** X4. [clearCooldown] releases the whole family of the model for the
    credential, at once and for every later instant, and changes no answer
    for another credential or another family. *)
Theorem clearCooldown_releases_family (now : Z) (wr : bool)
    (tokenId modelId : string) (m : manager) :
  let m' := clearCooldown now wr tokenId modelId m in
  (forall t wr' modelId',
     getGroupKey modelId' = getGroupKey modelId ->
     getCooldownUntil t tokenId modelId' m' = None /\
     (isAvailable t wr' tokenId modelId' m').1 = true) /\
  (forall t tokenId' modelId',
     tokenId' <> tokenId \/ getGroupKey modelId' <> getGroupKey modelId ->
     getCooldownUntil t tokenId' modelId' m' = getCooldownUntil t tokenId' modelId' m).
Proof.
  intros m'. subst m'. split.
  - intros t wr' modelId' Hk.
    assert (E : getCooldownUntil t tokenId modelId'
                  (clearCooldown now wr tokenId modelId m) = None).
    { rewrite getCooldownUntil_ahead. destruct (truthy tokenId) eqn:Ht; [|reflexivity].
      rewrite clearCooldown_deadline, Ht. simpl.
      now rewrite bool_decide_eq_true_2 by auto. }
    split; [exact E|]. now rewrite isAvailable_answer, E.
  - intros t tokenId' modelId' Hne. rewrite !getCooldownUntil_ahead.
    rewrite clearCooldown_deadline.
    rewrite bool_decide_eq_false_2 by tauto. now rewrite andb_false_r.
Qed.

(** X5. [clearAllCooldowns] releases every model for the credential and
    changes no answer for any other credential. *)
Theorem clearAllCooldowns_releases_credential (now : Z) (wr : bool)
    (tokenId : string) (m : manager) :
  let m' := clearAllCooldowns now wr tokenId m in
  (forall t wr' modelId,
     getCooldownUntil t tokenId modelId m' = None /\
     (isAvailable t wr' tokenId modelId m').1 = true) /\
  (forall t tokenId' modelId,
     tokenId' <> tokenId ->
     getCooldownUntil t tokenId' modelId m' = getCooldownUntil t tokenId' modelId m).
Proof.
  intros m'. subst m'. split.
  - intros t wr' modelId.
    assert (E : getCooldownUntil t tokenId modelId
                  (clearAllCooldowns now wr tokenId m) = None).
    { rewrite getCooldownUntil_ahead. destruct (truthy tokenId) eqn:Ht; [|reflexivity].
      unfold clearAllCooldowns. rewrite Ht. simpl. unfold deadline.
      destruct (cooldowns m !! tokenId) eqn:Hg.
      - rewrite saveToFile_cooldowns. simpl. now rewrite lookup_delete_eq.
      - now rewrite Hg. }
    split; [exact E|]. now rewrite isAvailable_answer, E.
  - intros t tokenId' modelId Hne. rewrite !getCooldownUntil_ahead.
    destruct (truthy tokenId'); [|reflexivity]. f_equal.
    unfold clearAllCooldowns. destruct (negb (truthy tokenId)); [reflexivity|].
    destruct (cooldowns m !! tokenId); [|reflexivity].
    rewrite saveToFile_cooldowns. simpl. unfold deadline.
    now rewrite lookup_delete_ne by auto.
Qed.

Lemma getGroupKey_ownKey (modelId : string) : ownKey (getGroupKey modelId) = true.
Proof.
  unfold getGroupKey. repeat case_match; reflexivity.
Qed.

Lemma validGroups_lookup (now : Z) (g : groupMap) (k : string) :
  validGroups now g !! k =
  match g !! k with
  | Some data => if ownKey k && stillCooling now data then Some data else None
  | None => None
  end.
Proof.
  unfold validGroups. rewrite map_lookup_filter.
  destruct (g !! k) as [data|]; simpl; [|reflexivity].
  destruct (ownKey k) eqn:O; destruct (stillCooling now data) eqn:S;
    case_guard as G; simpl in *; try reflexivity;
    solve [ exfalso; apply G; auto | destruct G; congruence ].
Qed.

Lemma hasValid_spec (now : Z) (g : groupMap) :
  hasValid now g = true <->
  exists k data, g !! k = Some data /\ stillCooling now data = true.
Proof.
  unfold hasValid. rewrite bool_decide_eq_true. reflexivity.
Qed.

Lemma cooldownsObj_lookup (now : Z) (cds : gmap string groupMap) (tokenId : string) :
  cooldownsObj now cds !! tokenId =
  match cds !! tokenId with
  | Some g => if ownKey tokenId && hasValid now g
              then Some (validGroups now g) else None
  | None => None
  end.
Proof.
  unfold cooldownsObj. rewrite map_lookup_imap.
  now destruct (cds !! tokenId).
Qed.

Lemma stillCooling_ahead (now : Z) (data : option Z) :
  ahead now data = if stillCooling now data then data else None.
Proof.
  destruct data as [u|]; simpl; [|reflexivity].
  destruct (u =? 0); simpl; [reflexivity|].
  rewrite Z.ltb_antisym. now destruct (u <=? now).
Qed.

(** The deadlines of the snapshot [saveToFile] writes: those still ahead,
    under the keys that become own properties. *)
Lemma cooldownsObj_deadline (now : Z) (cds : gmap string groupMap)
    (tokenId groupKey : string) :
  deadline (cooldownsObj now cds) tokenId groupKey =
  if ownKey tokenId && ownKey groupKey
  then ahead now (deadline cds tokenId groupKey) else None.
Proof.
  unfold deadline. rewrite cooldownsObj_lookup.
  destruct (cds !! tokenId) as [g|]; simpl;
    [|now destruct (ownKey tokenId && ownKey groupKey)].
  destruct (ownKey tokenId); simpl; [|reflexivity].
  pose proof (stillCooling_ahead now) as A.
  destruct (hasValid now g) eqn:V.
  - rewrite validGroups_lookup.
    destruct (ownKey groupKey); simpl.
    + destruct (g !! groupKey) as [[u|]|]; try reflexivity.
      rewrite (A (Some u)). now destruct (stillCooling now (Some u)).
    + now destruct (g !! groupKey) as [[u|]|].
  - destruct (ownKey groupKey); [|reflexivity].
    destruct (g !! groupKey) as [[u|]|] eqn:Hk; try reflexivity.
    rewrite (A (Some u)).
    destruct (stillCooling now (Some u)) eqn:S; [|reflexivity].
    assert (hasValid now g = true) by (apply hasValid_spec; eauto).
    congruence.
Qed.

Lemma ahead_idem (now t : Z) (d : option Z) :
  now <= t -> ahead t (ahead now d) = ahead t d.
Proof.
  intros Hle. destruct d as [u|]; [|reflexivity]. simpl.
  destruct (u =? 0) eqn:H0; simpl; [reflexivity|].
  destruct (u <=? now) eqn:Hu; simpl.
  - apply Z.leb_le in Hu.
    assert (E : (u <=? t) = true) by (apply Z.leb_le; lia). now rewrite E.
  - now rewrite H0.
Qed.

(** X6. The listing agrees with the single check. The listing is a plain
    object, so it holds own properties only: for a non-empty credential
    identifier other than [__proto__], [getAllCooldowns] shows a deadline
    under the credential and the family of a model exactly when
    [getCooldownUntil] reports that deadline; every credential it shows is
    other than [__proto__] and has at least one deadline, none of them
    under [__proto__]. *)
Theorem getAllCooldowns_agrees_with_getCooldownUntil (now : Z) (m : manager) :
  (forall tokenId modelId until,
     truthy tokenId = true -> ownKey tokenId = true ->
     ((exists g, getAllCooldowns now m !! tokenId = Some g /\
                 g !! getGroupKey modelId = Some until) <->
      getCooldownUntil now tokenId modelId m = Some until)) /\
  (forall tokenId g,
     getAllCooldowns now m !! tokenId = Some g ->
     ownKey tokenId = true /\ g <> ∅ /\ g !! "__proto__" = None).
Proof.
  assert (L : forall tokenId g,
            getAllCooldowns now m !! tokenId = Some g <->
            exists g0, cooldowns m !! tokenId = Some g0 /\ ownKey tokenId = true /\
                       g = omap id (validGroups now g0) /\ g <> ∅).
  { intros tokenId g. unfold getAllCooldowns.
    rewrite map_lookup_imap.
    destruct (cooldowns m !! tokenId) as [g0|]; simpl.
    - destruct (ownKey tokenId); simpl.
      + case_bool_decide as D; simpl.
        * split; [intros [= <-]; eauto | intros (g1 & [= <-] & _ & -> & _); auto].
        * split; [discriminate | intros (g1 & [= <-] & _ & -> & Hne); contradiction].
      + split; [discriminate | intros (g1 & _ & ? & _); discriminate].
    - split; [discriminate | intros (g1 & [=] & _)]. }
  assert (V : forall g0 k until,
            omap id (validGroups now g0) !! k = Some until <->
            g0 !! k = Some (Some until) /\ ownKey k = true /\
            stillCooling now (Some until) = true).
  { intros g0 k until. rewrite lookup_omap, validGroups_lookup.
    destruct (g0 !! k) as [[u|]|]; simpl.
    - destruct (ownKey k); simpl.
      + destruct (negb (u =? 0) && (now <? u)) eqn:S; simpl.
        * split; [intros [= ->]; auto | intros ([= ->] & _); reflexivity].
        * split; [discriminate | intros ([= ->] & _ & ?); congruence].
      + split; [discriminate | intros (_ & ? & _); discriminate].
    - destruct (ownKey k); simpl; (split; [discriminate | intros ([=] & _)]).
    - split; [discriminate | intros ([=] & _)]. }
  split.
  - intros tokenId modelId until Ht Ho.
    rewrite getCooldownUntil_ahead, Ht. unfold deadline. split.
    + intros (g & Hg & Hk). apply L in Hg as (g0 & Hg0 & _ & -> & _).
      apply V in Hk as (Hk & _ & S). rewrite Hg0, Hk.
      now rewrite (stillCooling_ahead now (Some until)), S.
    + intros H. destruct (cooldowns m !! tokenId) as [g0|] eqn:Hg0; [|discriminate].
      destruct (g0 !! getGroupKey modelId) as [[u|]|] eqn:Hk; try discriminate.
      rewrite (stillCooling_ahead now (Some u)) in H.
      destruct (stillCooling now (Some u)) eqn:S; [|discriminate].
      injection H as <-.
      assert (Hv : omap id (validGroups now g0) !! getGroupKey modelId = Some u)
        by (apply V; auto using getGroupKey_ownKey).
      exists (omap id (validGroups now g0)). split; [|exact Hv].
      apply L. exists g0. repeat split; auto.
      intros E. rewrite E, lookup_empty in Hv. discriminate.
  - intros tokenId g Hg. apply L in Hg as (g0 & _ & Ho & -> & Hne).
    split; [exact Ho|]. split; [exact Hne|].
    destruct (omap id (validGroups now g0) !! "__proto__") as [u|] eqn:E;
      [|reflexivity].
    apply V in E as (_ & ? & _). discriminate.
Qed.

(** X7. What [saveToFile] writes is the sparse snapshot of the cooldowns
    still running, as far as a plain object holds them: a deadline is in
    the file exactly when it is in memory, non-zero, ahead of the instant
    of the save, and neither its credential nor its family is named
    [__proto__]. Every credential of the file had a running cooldown in
    memory and has no [null] entry in the file; it has an entry there
    unless its groups hold the key [__proto__]. A failed write is
    swallowed, leaving file and memory as they were. *)
Theorem saveToFile_writes_running_cooldowns (now : Z) (m : manager) :
  (forall tokenId groupKey,
     deadline (persisted (saveToFile now true m)) tokenId groupKey =
     if ownKey tokenId && ownKey groupKey
     then ahead now (deadline (cooldowns m) tokenId groupKey) else None) /\
  (forall tokenId g,
     persisted (saveToFile now true m) !! tokenId = Some g ->
     ownKey tokenId = true /\
     (exists g0 groupKey data,
        cooldowns m !! tokenId = Some g0 /\ g0 !! groupKey = Some data /\
        stillCooling now data = true /\
        (g0 !! "__proto__" = None -> g <> ∅)) /\
     forall groupKey, g !! groupKey <> Some None) /\
  cooldowns (saveToFile now true m) = cooldowns m /\
  saveToFile now false m = m.
Proof.
  split; [|split; [|split]]; try reflexivity.
  - intros tokenId groupKey. apply cooldownsObj_deadline.
  - intros tokenId g. simpl. rewrite cooldownsObj_lookup.
    destruct (cooldowns m !! tokenId) as [g0|]; [|discriminate].
    destruct (ownKey tokenId); simpl; [|discriminate].
    destruct (hasValid now g0) eqn:Hv; [|discriminate].
    intros [= <-]. split; [reflexivity|]. split.
    + apply hasValid_spec in Hv as (k & data & Hk & S).
      exists g0, k, data. repeat split; auto.
      intros Hp E.
      assert (O : ownKey k = true).
      { unfold ownKey. destruct (String.eqb_spec k "__proto__") as [->|]; [|reflexivity].
        congruence. }
      pose proof (validGroups_lookup now g0 k) as L.
      rewrite E, lookup_empty, Hk, O, S in L. discriminate.
    + intros groupKey. rewrite validGroups_lookup.
      destruct (g0 !! groupKey) as [[u|]|]; simpl; try discriminate;
        destruct (ownKey groupKey); simpl; try discriminate.
      destruct (negb (u =? 0) && (now <? u)); discriminate.
Qed.

Lemma cleanupExpired_deadline (now : Z) (wr : bool) (m : manager)
    (tokenId groupKey : string) :
  deadline (cooldowns (_cleanupExpired now wr m)) tokenId groupKey =
  afterSweep now (deadline (cooldowns m) tokenId groupKey).
Proof.
  unfold _cleanupExpired. destruct (bool_decide _);
    rewrite ?saveToFile_cooldowns; simpl; unfold deadline;
    rewrite lookup_fmap; destruct (cooldowns m !! tokenId) as [g|]; simpl;
    try reflexivity; rewrite lookup_fmap;
    destruct (g !! groupKey) as [[u|]|]; simpl; try reflexivity;
    now destruct (negb (u =? 0) && (u <=? now)).
Qed.

Lemma ahead_swept (now t : Z) (d : option Z) :
  now <= t -> ahead t (afterSweep now d) = ahead t d.
Proof.
  intros Hle. destruct d as [u|]; [|reflexivity]. unfold afterSweep.
  destruct (expired now (Some u)) eqn:E; [|reflexivity].
  symmetry. now apply (ahead_healed now).
Qed.

(** X9. The sweep at start-up: after [_cleanupExpired] no entry is expired,
    no answer at that instant or later has changed, and a manager without
    expired entries is left exactly as it is, file included. *)
Theorem cleanupExpired_sweeps_without_effect (now : Z) (wr : bool) (m : manager) :
  let m' := _cleanupExpired now wr m in
  (forall tokenId groupKey until,
     deadline (cooldowns m') tokenId groupKey = Some until ->
     expired now (Some until) = false) /\
  (forall t tokenId modelId, now <= t ->
     getCooldownUntil t tokenId modelId m' = getCooldownUntil t tokenId modelId m) /\
  ((forall tokenId g groupKey data,
      cooldowns m !! tokenId = Some g -> g !! groupKey = Some data ->
      expired now data = false) ->
   m' = m).
Proof.
  intros m'. subst m'. split; [|split].
  - intros tokenId groupKey until. rewrite cleanupExpired_deadline.
    destruct (deadline (cooldowns m) tokenId groupKey) as [u|]; [|discriminate].
    unfold afterSweep. destruct (expired now (Some u)) eqn:E; [discriminate|].
    now intros [= <-].
  - intros t tokenId modelId Hle. rewrite !getCooldownUntil_ahead.
    destruct (truthy tokenId); [|reflexivity].
    rewrite cleanupExpired_deadline. now apply ahead_swept.
  - intros Hnone. unfold _cleanupExpired.
    rewrite bool_decide_eq_false_2.
    + destruct m as [cds p]. simpl in *. f_equal.
      apply map_eq. intros tokenId. rewrite lookup_fmap.
      destruct (cds !! tokenId) as [g|] eqn:Hg; [|reflexivity]. simpl. f_equal.
      apply map_eq. intros groupKey. rewrite lookup_fmap.
      destruct (g !! groupKey) as [data|] eqn:Hk; [|reflexivity]. simpl.
      now rewrite (Hnone tokenId g groupKey data Hg Hk).
    + intros (tokenId & g & Hg & groupKey & data & Hk & E).
      rewrite (Hnone tokenId g groupKey data Hg Hk) in E. discriminate.
Qed.

Lemma loadFromFile_unread_available (now t : Z) (wr wr' : bool)
    (doc : gmap string groupMap) (tokenId modelId : string) :
  (isAvailable t wr' tokenId modelId
     (loadFromFile now false wr {| cooldowns := ∅; persisted := doc |})).1 = true.
Proof.
  rewrite isAvailable_answer, getCooldownUntil_ahead.
  unfold loadFromFile, deadline. simpl. rewrite lookup_empty.
  now destruct (truthy tokenId).
Qed.

Lemma loadFromFile_empty_available (now t : Z) (rd wr wr' : bool)
    (tokenId modelId : string) :
  (isAvailable t wr' tokenId modelId
     (loadFromFile now rd wr {| cooldowns := ∅; persisted := ∅ |})).1 = true.
Proof.
  destruct rd; [|apply loadFromFile_unread_available].
  rewrite isAvailable_answer, getCooldownUntil_ahead.
  unfold loadFromFile. rewrite cleanupExpired_deadline. simpl.
  rewrite (right_id_L ∅ (∪)). unfold deadline. rewrite lookup_empty.
  now destruct (truthy tokenId).
Qed.

(** X8. Cooldowns across a restart. A manager constructed over the file
    that a successful save wrote throws when the data directory cannot be
    made ready, or when the file is not seen and cannot be written anew.
    Otherwise, when the file is seen and read, the new manager gives from
    then on the answers the old manager would give, for every credential
    other than [__proto__], whose cooldowns the file never holds; when the
    file is not seen (it is overwritten with an empty registry) or cannot
    be read, the new manager starts empty and every credential is
    available. Without any file the constructor throws when the directory
    or the file cannot be created, and starts empty otherwise. *)
Theorem construct_keeps_running_cooldowns (saved_at opened_at : Z) (io : startup)
    (m : manager) :
  let file := Some (persisted (saveToFile saved_at true m)) in
  (construct opened_at io file = None <->
   dirReady io = false \/ (fileSeen io = false /\ createOk io = false)) /\
  (forall m',
     construct opened_at io file = Some m' ->
     (fileSeen io = true -> loadOk io = true ->
      forall t wr' tokenId modelId,
        saved_at <= t -> opened_at <= t -> ownKey tokenId = true ->
        getCooldownUntil t tokenId modelId m' =
          getCooldownUntil t tokenId modelId m /\
        (isAvailable t wr' tokenId modelId m').1 =
          (isAvailable t wr' tokenId modelId m).1) /\
     (fileSeen io = true -> loadOk io = true ->
      forall t wr' modelId,
        opened_at <= t -> (isAvailable t wr' "__proto__" modelId m').1 = true) /\
     (fileSeen io = false \/ loadOk io = false ->
      forall t wr' tokenId modelId,
        (isAvailable t wr' tokenId modelId m').1 = true)) /\
  (construct opened_at io None = None <->
   dirReady io = false \/ createOk io = false) /\
  (forall m' t wr' tokenId modelId,
     construct opened_at io None = Some m' ->
     (isAvailable t wr' tokenId modelId m').1 = true).
Proof.
  intros file. subst file. simpl.
  destruct io as [dr fs co lo so]. unfold construct, ensureFileExists. simpl.
  split; [|split; [|split]].
  - destruct dr, fs, co; simpl; split; intros H; try discriminate; auto;
      destruct H as [H|[H H']]; discriminate.
  - intros m' Hm'. split; [|split].
    + intros -> -> t wr' tokenId modelId H0 H1 Ho.
      destruct dr; simpl in Hm'; [|discriminate]. injection Hm' as <-.
      assert (E : getCooldownUntil t tokenId modelId
                    (loadFromFile opened_at true so
                       {| cooldowns := ∅;
                          persisted := cooldownsObj saved_at (cooldowns m) |}) =
                  getCooldownUntil t tokenId modelId m).
      { rewrite !getCooldownUntil_ahead. destruct (truthy tokenId); [|reflexivity].
        unfold loadFromFile. rewrite cleanupExpired_deadline. simpl.
        rewrite (right_id_L ∅ (∪)), cooldownsObj_deadline.
        rewrite Ho, getGroupKey_ownKey. simpl.
        rewrite ahead_swept by exact H1. now apply ahead_idem. }
      unfold loadFromFile in E. simpl in E.
      split; [exact E|]. now rewrite !isAvailable_answer, E.
    + intros -> -> t wr' modelId H1.
      destruct dr; simpl in Hm'; [|discriminate]. injection Hm' as <-.
      rewrite isAvailable_answer, getCooldownUntil_ahead. simpl.
      unfold loadFromFile. rewrite cleanupExpired_deadline. simpl.
      rewrite (right_id_L ∅ (∪)), cooldownsObj_deadline. reflexivity.
    + intros Hor t wr' tokenId modelId.
      destruct dr; simpl in Hm'; [|discriminate].
      destruct fs.
      * destruct Hor as [? | ->]; [discriminate|]. injection Hm' as <-.
        exact (loadFromFile_unread_available opened_at t so wr' _ tokenId modelId).
      * destruct co; [|discriminate]. injection Hm' as <-.
        exact (loadFromFile_empty_available opened_at t lo so wr' tokenId modelId).
  - destruct dr, co; simpl; split; intros H; try discriminate; auto;
      destruct H as [H|H]; discriminate.
  - intros m' t wr' tokenId modelId Hm'.
    destruct dr; simpl in Hm'; [|discriminate].
    destruct co; [|discriminate]. injection Hm' as <-.
    exact (loadFromFile_empty_available opened_at t lo so wr' tokenId modelId).
Qed.

Lemma isAvailable_healing_is_unobservable_witness :
  let m' := (isAvailable 6000 true "t1" "claude-3-opus" twoCooldowns).2 in
  6000 <= 7000 /\
  getCooldownUntil 7000 "t2" "gemini-pro" m' =
    getCooldownUntil 7000 "t2" "gemini-pro" twoCooldowns /\
  getCooldownUntil 7000 "t1" "claude-3-opus" m' =
    getCooldownUntil 7000 "t1" "claude-3-opus" twoCooldowns.
Proof.
  intros m'. subst m'. split; [lia|].
  split; apply (isAvailable_healing_is_unobservable 6000 true "t1" "claude-3-opus"
                  twoCooldowns); lia.
Defined.

Lemma clearCooldown_releases_family_witness :
  let m' := clearCooldown 2000 true "t1" "claude-sonnet-4" twoCooldowns in
  getGroupKey "claude-3-opus" = getGroupKey "claude-sonnet-4" /\
  getCooldownUntil 2000 "t1" "claude-3-opus" m' = None /\
  getCooldownUntil 2000 "t2" "gemini-pro" m' =
    getCooldownUntil 2000 "t2" "gemini-pro" twoCooldowns.
Proof.
  intros m'. subst m'. split; [reflexivity|].
  destruct (clearCooldown_releases_family 2000 true "t1" "claude-sonnet-4"
              twoCooldowns) as [Hrel Hframe].
  split.
  - apply (Hrel 2000 true "claude-3-opus"). reflexivity.
  - apply Hframe. left. discriminate.
Defined.

Lemma clearAllCooldowns_releases_credential_witness :
  let m' := clearAllCooldowns 2000 true "t1" twoCooldowns in
  "t2" <> "t1" /\
  getCooldownUntil 2000 "t1" "claude-3-opus" m' = None /\
  getCooldownUntil 2000 "t2" "gemini-pro" m' =
    getCooldownUntil 2000 "t2" "gemini-pro" twoCooldowns.
Proof.
  intros m'. subst m'.
  assert (Hne : "t2" <> "t1") by discriminate.
  split; [exact Hne|].
  destruct (clearAllCooldowns_releases_credential 2000 true "t1" twoCooldowns)
    as [Hrel Hframe].
  split; [apply (Hrel 2000 true) | now apply Hframe].
Defined.

Lemma getAllCooldowns_agrees_with_getCooldownUntil_witness :
  truthy "t1" = true /\ ownKey "t1" = true /\
  getCooldownUntil 2000 "t1" "claude-3-opus" twoCooldowns = Some 5000 /\
  exists g, getAllCooldowns 2000 twoCooldowns !! "t1" = Some g /\
            g !! "claude" = Some 5000.
Proof.
  assert (H : getCooldownUntil 2000 "t1" "claude-3-opus" twoCooldowns = Some 5000)
    by (vm_compute; reflexivity).
  split; [reflexivity|]. split; [reflexivity|]. split; [exact H|].
  apply (proj1 (getAllCooldowns_agrees_with_getCooldownUntil 2000 twoCooldowns)
           "t1" "claude-3-opus" 5000 eq_refl eq_refl).
  exact H.
Defined.

Lemma saveToFile_writes_running_cooldowns_witness :
  deadline (persisted (saveToFile 6000 true twoCooldowns)) "t1" "claude" = None /\
  deadline (persisted (saveToFile 6000 true twoCooldowns)) "t2" "gemini" = Some 9000 /\
  exists g, persisted (saveToFile 6000 true twoCooldowns) !! "t2" = Some g /\
            ownKey "t2" = true /\ forall groupKey, g !! groupKey <> Some None.
Proof.
  destruct (saveToFile_writes_running_cooldowns 6000 twoCooldowns) as (Hd & Hs & _).
  split; [|split].
  - rewrite Hd. vm_compute. reflexivity.
  - rewrite Hd. vm_compute. reflexivity.
  - destruct (persisted (saveToFile 6000 true twoCooldowns) !! "t2") as [g|] eqn:E.
    + exists g. split; [reflexivity|].
      destruct (Hs "t2" g E) as (Ho & _ & Hn). split; [exact Ho | exact Hn].
    + vm_compute in E. discriminate.
Defined.

Lemma cleanupExpired_sweeps_without_effect_witness :
  let m' := _cleanupExpired 6000 true twoCooldowns in
  6000 <= 7000 /\
  getCooldownUntil 7000 "t2" "gemini-pro" m' =
    getCooldownUntil 7000 "t2" "gemini-pro" twoCooldowns /\
  deadline (cooldowns m') "t1" "claude" = None.
Proof.
  intros m'. subst m'. split; [lia|]. split.
  - apply (cleanupExpired_sweeps_without_effect 6000 true twoCooldowns). lia.
  - vm_compute. reflexivity.
Defined.

Lemma construct_keeps_running_cooldowns_witness :
  let file := Some (persisted (saveToFile 2000 true twoCooldowns)) in
  exists m', construct 3000 healthy file = Some m' /\
    fileSeen healthy = true /\ loadOk healthy = true /\
    2000 <= 4000 /\ 3000 <= 4000 /\ ownKey "t1" = true /\
    getCooldownUntil 4000 "t1" "claude-3-opus" m' =
      getCooldownUntil 4000 "t1" "claude-3-opus" twoCooldowns.
Proof.
  intros file. subst file.
  destruct (construct 3000 healthy (Some (persisted (saveToFile 2000 true twoCooldowns))))
    as [m'|] eqn:E; [|vm_compute in E; discriminate].
  exists m'. split; [reflexivity|].
  split; [reflexivity|]. split; [reflexivity|].
  split; [lia|]. split; [lia|]. split; [reflexivity|].
  destruct (construct_keeps_running_cooldowns 2000 3000 healthy twoCooldowns)
    as (_ & H & _).
  destruct (H m' E) as (Hk & _).
  apply (Hk eq_refl eq_refl 4000 true "t1" "claude-3-opus"); [lia | lia | reflexivity].
Defined.

(** ** Signature cache: keys, policy, failures, clearing *)

Lemma sanitizeChar_safe (c : ascii) : ~ In (sanitizeChar c) unsafeChars.
Proof.
  unfold sanitizeChar. destruct (existsb (Ascii.eqb c) unsafeChars) eqn:E.
  - simpl. intuition discriminate.
  - intros Hin. assert (existsb (Ascii.eqb c) unsafeChars = true); [|congruence].
    apply existsb_exists. exists c. split; [exact Hin | apply Ascii.eqb_refl].
Qed.

(** X10. A cache key never holds a character that is unsafe in a file name:
    whatever the model identifier, the key [makeModelKey] returns contains
    none of the characters less-than, greater-than, colon, double quote,
    slash, backslash, bar, question mark, star. *)
Theorem makeModelKey_is_filename_safe (model k : string) :
  makeModelKey model = Some k -> filenameSafe k.
Proof.
  unfold makeModelKey. destruct (negb (truthy model)); [discriminate|].
  intros [= <-]. generalize (stripResolution model). intros s.
  unfold filenameSafe. induction s as [|c s IH]; simpl; [tauto|].
  intros c' [<-|Hin]; [apply sanitizeChar_safe | now apply IH].
Qed.

Lemma makeModelKey_is_filename_safe_witness :
  makeModelKey "models/gemini:3?-4K" = Some "models_gemini_3_" /\
  filenameSafe "models_gemini_3_".
Proof.
  assert (H : makeModelKey "models/gemini:3?-4K" = Some "models_gemini_3_")
    by reflexivity.
  split; [exact H|].
  exact (makeModelKey_is_filename_safe "models/gemini:3?-4K" "models_gemini_3_" H).
Defined.



(** The answer of [getSignature] depends on the directory through the file
    of the model's key only. *)
Lemma getSignature_local (cfg : config) (dir dir' : cacheDir) (rd : bool)
    (sessionId model : string) (opts : options) :
  (forall k, makeModelKey model = Some k -> dir' !! k = dir !! k) ->
  getSignature cfg dir' rd sessionId model opts =
  getSignature cfg dir rd sessionId model opts.
Proof.
  intros H. unfold getSignature, getLatestEntry, readModelCache.
  destruct (negb (truthy model)); [reflexivity|].
  destruct (makeModelKey model) as [k|]; [|reflexivity].
  simpl. destruct (truthy k); [|reflexivity]. now rewrite (H k eq_refl).
Qed.

(** X15. Models with different keys do not see each other: storing a
    signature for one model changes no answer of [getSignature] for a model
    whose key differs. *)
Theorem setSignature_leaves_other_models (cfg cfg' : config) (dir : cacheDir) (o : io)
    (sessionId model sig : string) (content : option string) (opts : options)
    (rd : bool) (sessionId' model' : string) (opts' : options) :
  makeModelKey model' <> makeModelKey model ->
  getSignature cfg' (setSignature cfg dir o sessionId model sig content opts)
    rd sessionId' model' opts' =
  getSignature cfg' dir rd sessionId' model' opts'.
Proof.
  intros Hne. apply getSignature_local. intros k Hk.
  apply setSignature_other_key. congruence.
Qed.

Lemma setSignature_leaves_other_models_witness :
  let all := Config true false false true in
  let dir := setSignature all ∅ (Io true true) "s" "gemini-2.5-pro" "g1" None noOptions in
  makeModelKey "gemini-2.5-pro" <> makeModelKey "claude-opus-4" /\
  getSignature all
    (setSignature all dir (Io true true) "s" "claude-opus-4" "c1" None noOptions)
    true "s" "gemini-2.5-pro" noOptions =
  getSignature all dir true "s" "gemini-2.5-pro" noOptions.
Proof.
  intros all dir.
  assert (H : makeModelKey "gemini-2.5-pro" <> makeModelKey "claude-opus-4")
    by discriminate.
  split; [exact H|].
  apply (setSignature_leaves_other_models all all dir (Io true true) "s"
           "claude-opus-4" "c1" None noOptions true "s" "gemini-2.5-pro" noOptions H).
Defined.

Lemma last_evict_snoc (h : list entry) (e : entry) :
  last (evict (h ++ [e])) = Some e.
Proof.
  rewrite evict_drop. unfold MAX_SIGNATURES_PER_MODEL.
  destruct (decide (length h + 1 <= 3)%nat) as [H|H].
  - replace (length (h ++ [e]) - 3)%nat with 0%nat
      by (rewrite length_app; simpl; lia).
    apply last_snoc.
  - rewrite drop_app_le by (rewrite length_app; simpl; lia). apply last_snoc.
Qed.

(** X12. What is stored is what is read back: when the policy lets the
    signature be cached and the file calls succeed, the next [getSignature]
    for the model, from any session, returns an entry carrying that
    signature. Its content is the one just given (gated as usual) unless the
    signature repeats that of the latest entry: then the push was skipped
    and the older content is served. *)
Theorem setSignature_then_getSignature (cfg cfgR : config) (dir : cacheDir)
    (sessionId sessionR model k sig : string) (text : option string)
    (opts optsR : options) :
  truthy sig = true ->
  makeModelKey model = Some k -> truthy k = true ->
  shouldCacheSignature cfg (default false (opt_hasTools opts))
    (default (isImageModel model) (opt_isImageModel opts)) = true ->
  let dir' := setSignature cfg dir (Io true true) sessionId model sig text opts in
  let given := processThinkingContent cfg (default " " text) in
  exists e,
    getSignature cfgR dir' true sessionR model optsR = Some e /\
    signature e = sig /\
    (sameAsTail (history dir k) (Entry sig given) = false ->
     content e = if cacheThinking cfgR then given else " ") /\
    (sameAsTail (history dir k) (Entry sig given) = true ->
     dir' = dir /\
     exists old, last (history dir k) = Some old /\ signature old = sig /\
                 content e = if cacheThinking cfgR then content old else " ").
Proof.
  intros Ts Hk Tk Hc dir' given.
  assert (Hm : truthy model = true).
  { unfold makeModelKey in Hk. destruct (truthy model); [reflexivity|discriminate]. }
  assert (Hget : forall d, getSignature cfgR d true sessionR model optsR =
            match last (history d k) with
            | Some e => Some (Entry (signature e)
                                (if cacheThinking cfgR then content e else " "))
            | None => None
            end).
  { intros d. unfold getSignature. rewrite Hm, Hk. simpl.
    now rewrite (getLatestEntry_history d k Tk). }
  assert (Hset : dir' = pushEntry dir (Io true true) (Some k) (Entry sig given)).
  { subst dir' given. now rewrite setSignature_pushes, Hk by auto. }
  destruct (sameAsTail (history dir k) (Entry sig given)) eqn:D.
  - assert (Hsame : dir' = dir).
    { rewrite Hset. unfold pushEntry. rewrite (keyTruthy_Some k Tk). simpl.
      rewrite Ts. simpl. fold (history dir k). now rewrite D. }
    unfold sameAsTail in D. destruct (last (history dir k)) as [old|] eqn:L;
      [|discriminate].
    apply String.eqb_eq in D. simpl in D.
    eexists. rewrite Hget, Hsame, L. split; [reflexivity|]. simpl.
    split; [exact D|]. split; [discriminate|]. intros _. split; [reflexivity|].
    exists old. auto.
  - rewrite Hset, (pushEntry_appends dir k (Entry sig given) Tk Ts D) in *.
    eexists. rewrite Hget, (history_insert _ _ _ Tk), last_evict_snoc.
    split; [reflexivity|]. simpl. split; [reflexivity|].
    split; [reflexivity | discriminate].
Qed.

Lemma setSignature_then_getSignature_witness :
  let all := Config true false false true in
  let dir := setSignature all ∅ (Io true true) "a" "claude-opus-4" "sig1"
               (Some "first") noOptions in
  let dir' := setSignature all dir (Io true true) "b" "claude-opus-4" "sig1"
                (Some "second") noOptions in
  exists e, getSignature all dir' true "c" "claude-opus-4" noOptions = Some e /\
            signature e = "sig1" /\ content e = "first".
Proof.
  intros all dir dir'.
  destruct (setSignature_then_getSignature all all dir "b" "c" "claude-opus-4"
              "claude-opus-4" "sig1" (Some "second") noOptions noOptions
              eq_refl eq_refl eq_refl eq_refl)
    as (e & Hg & Hs & _ & Hdup).
  exists e. split; [exact Hg|]. split; [exact Hs|].
  destruct Hdup as (_ & old & Hl & _ & Hc); [vm_compute; reflexivity|].
  rewrite Hc. vm_compute in Hl. injection Hl as <-. reflexivity.
Defined.

(** X13. Failures of the file calls of a push. When the history cannot be
    read (the read fails, or the file is malformed) and the write succeeds,
    the file is replaced by a history of the one new entry: the entries it
    held are lost. When the write fails, nothing changes. *)
Theorem pushEntry_under_io_failure (dir : cacheDir) (k : string) (e : entry) :
  truthy k = true -> truthy (signature e) = true ->
  (history (pushEntry dir (Io false true) (Some k) e) k = [e]) /\
  (dir !! k = Some Unreadable ->
   forall rd, history (pushEntry dir (Io rd true) (Some k) e) k = [e]) /\
  (forall rd, pushEntry dir (Io rd false) (Some k) e = dir).
Proof.
  intros Tk Te.
  assert (P : forall rd, readModelCache dir rd (Some k) = [] ->
            history (pushEntry dir (Io rd true) (Some k) e) k = [e]).
  { intros rd R. unfold pushEntry. rewrite (keyTruthy_Some k Tk), Te. simpl.
    rewrite R. simpl. unfold writeModelCache. rewrite (keyTruthy_Some k Tk).
    now apply history_insert. }
  split; [|split].
  - apply P. unfold readModelCache. rewrite (keyTruthy_Some k Tk).
    now destruct (dir !! k) as [[|]|].
  - intros U rd. apply P. unfold readModelCache.
    now rewrite (keyTruthy_Some k Tk), U.
  - intros rd. unfold pushEntry, writeModelCache.
    rewrite (keyTruthy_Some k Tk), Te. simpl.
    now destruct (sameAsTail _ e).
Qed.

Lemma pushEntry_under_io_failure_witness :
  let dir : cacheDir :=
    {[ "m" := SignatureFile [Entry "s1" "a"; Entry "s2" "b"] ]} in
  history dir "m" = [Entry "s1" "a"; Entry "s2" "b"] /\
  history (pushEntry dir (Io false true) (Some "m") (Entry "s3" "c")) "m"
    = [Entry "s3" "c"].
Proof.
  intros dir. split; [vm_compute; reflexivity|].
  apply (proj1 (pushEntry_under_io_failure dir "m" (Entry "s3" "c") eq_refl eq_refl)).
Defined.

Lemma endsWith_split (s p : string) :
  endsWith s p = true -> s = dropRight (String.length p) s +:+ p.
Proof.
  intros H.
  assert (E : exists a, s = a +:+ p).
  { induction s as [|c s IH].
    - rewrite endsWith_unfold in H. apply orb_true_iff in H as [H|H]; [|discriminate].
      apply String.eqb_eq in H. now exists EmptyString.
    - rewrite endsWith_unfold in H. apply orb_true_iff in H as [H|H].
      + apply String.eqb_eq in H. now exists EmptyString.
      + destruct (IH H) as [a ->]. now exists (String c a). }
  destruct E as [a ->]. now rewrite dropRight_app.
Qed.

(** The loop only unlinks: a file is gone or as it was. *)
Lemma unlinkAll_lookup (files : list string) (dir : cacheDir) (unlink_ok : list bool)
    (k : string) :
  unlinkAll dir files unlink_ok !! k = None \/
  unlinkAll dir files unlink_ok !! k = dir !! k.
Proof.
  revert dir unlink_ok. induction files as [|file rest IH]; intros dir unlink_ok; simpl.
  - now right.
  - assert (D : forall outcomes,
              unlinkAll (delete (dropRight 5 file) dir) rest outcomes !! k = None \/
              unlinkAll (delete (dropRight 5 file) dir) rest outcomes !! k = dir !! k).
    { intros outcomes.
      destruct (IH (delete (dropRight 5 file) dir) outcomes) as [E|E]; [now left|].
      destruct (decide (dropRight 5 file = k)) as [Heq|Hne].
      - left. now rewrite E, Heq, lookup_delete_eq.
      - right. now rewrite E, lookup_delete_ne. }
    destruct (endsWith file ".json"); [|apply IH].
    destruct unlink_ok as [|[|] outcomes]; [apply D | apply D | now right].
Qed.

(** With every [unlinkSync] succeeding, a listed file is gone. *)
Lemma unlinkAll_listed (files : list string) (dir : cacheDir) (unlink_ok : list bool)
    (k : string) :
  Forall (fun b => b = true) unlink_ok ->
  In (getCacheFilePath k) files ->
  unlinkAll dir files unlink_ok !! k = None.
Proof.
  revert dir unlink_ok. induction files as [|file rest IH];
    intros dir unlink_ok Hok Hin; simpl in *; [contradiction|].
  assert (D : forall outcomes,
            Forall (fun b => b = true) outcomes ->
            unlinkAll (delete (dropRight 5 file) dir) rest outcomes !! k = None).
  { intros outcomes Hall. destruct Hin as [->|Hin].
    - unfold getCacheFilePath.
      change 5%nat with (String.length ".json").
      rewrite (dropRight_app k ".json").
      destruct (unlinkAll_lookup rest (delete k dir) outcomes k) as [E|E];
        [exact E|]. now rewrite E, lookup_delete_eq.
    - now apply IH. }
  destruct (endsWith file ".json") eqn:Hj.
  - destruct unlink_ok as [|[|] outcomes].
    + now apply D.
    + apply D. now inversion Hok.
    + inversion Hok; discriminate.
  - destruct Hin as [->|Hin]; [|now apply IH].
    unfold getCacheFilePath in Hj. rewrite endsWith_app in Hj. discriminate.
Qed.

(** A file the listing does not name is never touched. *)
Lemma unlinkAll_unlisted (files : list string) (dir : cacheDir) (unlink_ok : list bool)
    (k : string) :
  ~ In (getCacheFilePath k) files ->
  unlinkAll dir files unlink_ok !! k = dir !! k.
Proof.
  revert dir unlink_ok. induction files as [|file rest IH];
    intros dir unlink_ok Hin; simpl in *; [reflexivity|].
  assert (Hrest : ~ In (getCacheFilePath k) rest) by tauto.
  destruct (endsWith file ".json") eqn:Hj; [|now apply IH].
  assert (Hne : dropRight 5 file <> k).
  { intros <-. apply Hin. left. unfold getCacheFilePath.
    change 5%nat with (String.length ".json").
    now apply endsWith_split. }
  destruct unlink_ok as [|[|] outcomes]; try reflexivity;
    rewrite IH by exact Hrest; now rewrite lookup_delete_ne.
Qed.

(** X14. Clearing the cache. When [readdirSync] names the file of every
    model and every [unlinkSync] succeeds, the loop of
    [clearThoughtSignatureCaches] leaves no file, and [getSignature]
    answers nothing for every model. Whatever the listing and the outcomes
    of the calls, also when the run is cut short by an exception, a file is
    afterwards gone or as it was, a file the listing does not name is as it
    was, and for every model [getSignature] answers either nothing or what
    it answered before. *)
Theorem clearThoughtSignatureCaches_forgets (cfg : config) (dir : cacheDir)
    (unlink_ok : list bool) (rd : bool) (sessionId model : string) (opts : options) :
  (forall files,
     listsAll dir files -> Forall (fun b => b = true) unlink_ok ->
     clearThoughtSignatureCaches dir (Some files) unlink_ok = ∅ /\
     getSignature cfg (clearThoughtSignatureCaches dir (Some files) unlink_ok)
       rd sessionId model opts = None) /\
  (forall listing,
     let dir' := clearThoughtSignatureCaches dir listing unlink_ok in
     (forall k, dir' !! k = None \/ dir' !! k = dir !! k) /\
     (forall k, (forall files, listing = Some files ->
                               ~ In (getCacheFilePath k) files) ->
                dir' !! k = dir !! k) /\
     (getSignature cfg dir' rd sessionId model opts = None \/
      getSignature cfg dir' rd sessionId model opts =
      getSignature cfg dir rd sessionId model opts)).
Proof.
  split.
  - intros files Hall Hok.
    assert (E : clearThoughtSignatureCaches dir (Some files) unlink_ok = ∅).
    { apply map_empty. intros k. simpl.
      destruct (dir !! k) as [f|] eqn:Hk.
      - apply unlinkAll_listed; [exact Hok|]. apply Hall. now rewrite Hk.
      - destruct (unlinkAll_lookup files dir unlink_ok k) as [H|H]; congruence. }
    split; [exact E|]. rewrite E.
    unfold getSignature, getLatestEntry, readModelCache.
    destruct (negb (truthy model)); [reflexivity|].
    destruct (keyTruthy (makeModelKey model)); [|reflexivity].
    now rewrite lookup_empty.
  - intros listing dir'. subst dir'.
    assert (L : forall k,
              clearThoughtSignatureCaches dir listing unlink_ok !! k = None \/
              clearThoughtSignatureCaches dir listing unlink_ok !! k = dir !! k).
    { intros k. destruct listing as [files|]; simpl; [|now right].
      apply unlinkAll_lookup. }
    split; [exact L|]. split.
    + intros k Hk. destruct listing as [files|]; simpl; [|reflexivity].
      apply unlinkAll_unlisted. now apply Hk.
    + destruct (makeModelKey model) as [k|] eqn:Hk.
      * destruct (L k) as [E|E].
        -- left. unfold getSignature, getLatestEntry, readModelCache.
           destruct (negb (truthy model)); [reflexivity|]. rewrite Hk. simpl.
           destruct (truthy k); [|reflexivity]. now rewrite E.
        -- right. apply getSignature_local. intros k' Hk'.
           rewrite Hk in Hk'. now injection Hk' as <-.
      * right. apply getSignature_local. intros k' Hk'. congruence.
Qed.

Lemma clearThoughtSignatureCaches_forgets_witness :
  let all := Config true false false true in
  let dir : cacheDir :=
    {[ "claude-opus-4" := SignatureFile [Entry "c1" "x"];
       "gemini-2.5-pro" := SignatureFile [Entry "g1" "y"] ]} in
  let files := [ "claude-opus-4.json"; "notes.txt"; "gemini-2.5-pro.json" ] in
  listsAll dir files /\ Forall (fun b => b = true) [true; true] /\
  clearThoughtSignatureCaches dir (Some files) [true; true] = ∅.
Proof.
  intros all dir files.
  assert (Hall : listsAll dir files).
  { intros k [f Hf]. subst dir files.
    apply lookup_insert_Some in Hf as [[<- _]|[_ Hf]]; [left; reflexivity|].
    apply lookup_singleton_Some in Hf as [<- _]. right. right. left. reflexivity. }
  assert (Hok : Forall (fun b => b = true) [true; true])
    by (repeat constructor).
  split; [exact Hall|]. split; [exact Hok|].
  apply (proj1 (clearThoughtSignatureCaches_forgets all dir [true; true] true "s"
                  "claude-opus-4" noOptions) files Hall Hok).
Defined.

(** ** Token store: cache, migration, failures *)

Section StoreFurther.

Variable salts : nat -> string.

Lemma persist_returned_cache (now : Z) (normalized : list record) (salt : string)
    (s s' : store) :
  persist now normalized salt s = (Returned tt, s') ->
  _cache s' = Some normalized /\ _cacheTime s' = now /\ _cacheTTL s' = _cacheTTL s /\
  file s' = Some (Document salt (Tokens normalized)).
Proof.
  unfold persist, try_catch, bind, fs_writeFile, nextOutcome, modify, throw.
  destruct s as [c ct ttl sl f [|[] rest] d]; simpl; intros [= <-]; auto.
Qed.

Lemma writeAll_returned_cache (now : Z) (tokens : option (list record)) (s s' : store) :
  writeAll salts now tokens s = (Returned tt, s') ->
  _cache s' = Some (default [] tokens) /\ _cacheTime s' = now /\
  exists salt, file s' = Some (Document salt (Tokens (default [] tokens))).
Proof.
  rewrite writeAll_eq.
  destruct (_ensureFileExists salts s) as [[[]|] s1]; [|discriminate].
  destruct (getSalt salts s1) as [[salt|] s2]; [|discriminate].
  intros H. apply persist_returned_cache in H as (C & T & _ & F). eauto.
Qed.

(** X16. A write is read back: after a [writeAll] that returns, [readAll]
    returns the records written, from the cache while it is valid, and from
    the file when no file call fails. *)
Theorem writeAll_then_readAll (now : Z) (tokens : option (list record))
    (s s' : store) :
  writeAll salts now tokens s = (Returned tt, s') ->
  (forall t, t - now < _cacheTTL s' ->
     readAll salts t s' = (Returned (default [] tokens), s')) /\
  (forall t, outcomes s' = [] ->
     (readAll salts t s').1 = Returned (default [] tokens)).
Proof.
  intros W. apply writeAll_returned_cache in W as (C & T & salt & F).
  assert (V : forall t, _isCacheValid t s' = true ->
            readAll salts t s' = (Returned (default [] tokens), s')).
  { intros t Hv. now rewrite readAll_eq, Hv, C. }
  split.
  - intros t Hlt. apply V. unfold _isCacheValid. rewrite C, T.
    now apply Z.ltb_lt.
  - intros t O. destruct (_isCacheValid t s') eqn:Hv.
    + now rewrite (V t Hv).
    + destruct (readAll_intact salts t s' salt _ Hv F O) as (s1 & R & _).
      now rewrite R.
Qed.

Lemma ensureFileExists_ttl (s : store) :
  _cacheTTL (_ensureFileExists salts s).2 = _cacheTTL s.
Proof. apply ensureFileExists_cache. Qed.

Lemma fs_readFile_ttl (s : store) : _cacheTTL (fs_readFile s).2 = _cacheTTL s.
Proof.
  unfold fs_readFile, nextOutcome, bind, get, ret, throw.
  destruct s as [c ct ttl sl [d|] [|[] rest] dr]; reflexivity.
Qed.

(** X17. After a [readAll] that went to the file, every [readAll] within
    the time to live is served from memory: it returns the same records and
    makes no file call, whatever has become of the file. *)
Theorem readAll_served_from_cache (now : Z) (s s1 : store) (records : list record) :
  _isCacheValid now s = false ->
  readAll salts now s = (Returned records, s1) ->
  forall t, t - now < _cacheTTL s ->
    readAll salts t s1 = (Returned records, s1).
Proof.
  intros V R t Hlt. rewrite readAll_eq, V in R.
  pose proof (ensureFileExists_ttl s) as Httl.
  destruct (_ensureFileExists salts s) as [[[]|] s0]; [|discriminate].
  simpl in R, Httl. pose proof (fs_readFile_ttl s0) as Httl'.
  injection R as <- <-.
  rewrite readAll_eq. unfold _isCacheValid. simpl.
  rewrite Httl', Httl.
  assert (E : (t - now <? _cacheTTL s) = true) by now apply Z.ltb_lt.
  now rewrite E.
Qed.

(** X18. [getSalt] never loses records: on a first call over a readable
    document, with no file call failing, it returns a salt that the file
    then carries, and the records of the file are those it held before; a
    bare array is upgraded to a document, a document without salt receives
    one, and a document with a salt is left as it is. *)
Theorem getSalt_keeps_records (s : store) (d : document) :
  saltTruthy (_salt s) = None ->
  file s = Some d -> d <> Malformed -> outcomes s = [] ->
  exists v tokens s',
    getSalt salts s = (Returned v, s') /\
    file s' = Some (Document v tokens) /\
    recordsRead (Returned (Document v tokens)) = recordsRead (Returned d) /\
    (forall salt tokens0, d = Document salt tokens0 -> truthy salt = true ->
       v = salt /\ file s' = file s) /\
    (forall records, d = BareArray records -> tokens = Tokens records).
Proof.
  intros Hs F Hd O. destruct s as [c ct ttl sl f o dr]. simpl in *. subst f o.
  unfold getSalt. unfold bind at 1. unfold get at 1. simpl. rewrite Hs.
  destruct d as [|records|salt tokens0]; [congruence| |].
  - eexists _, _, _. split; [reflexivity|]. simpl.
    repeat split; try reflexivity; intros; congruence.
  - destruct (truthy salt) eqn:T.
    + eexists _, _, _. split.
      * unfold bind, try_catch, _ensureFileExists, fs_access, fs_readFile,
          nextOutcome, get, ret, modify, throw. simpl. rewrite T. reflexivity.
      * simpl. repeat split; try reflexivity; intros; congruence.
    + destruct tokens0; (eexists _, _, _; split;
        [unfold bind, try_catch, _ensureFileExists, fs_access, fs_readFile,
           fs_writeFile, generateSalt, nextOutcome, get, ret, modify, throw;
         simpl; rewrite T; reflexivity
        |simpl; repeat split; try reflexivity; intros; congruence]).
Qed.

(** X19. [_ensureFileExists] on its three paths: a file whose access check
    succeeds is left untouched and no salt is drawn; a missing file is
    created as an empty document under a fresh salt; and a failure of the
    access check on an existing file is taken for a missing file, so that
    the document, records included, is replaced by an empty one. *)
Theorem ensureFileExists_paths (s : store) :
  (forall d, file s = Some d -> outcomeAt 0 s = true ->
     (_ensureFileExists salts s).1 = Returned tt /\
     file (_ensureFileExists salts s).2 = Some d /\
     drawn (_ensureFileExists salts s).2 = drawn s) /\
  (file s = None -> outcomeAt 1 s = true ->
     (_ensureFileExists salts s).1 = Returned tt /\
     file (_ensureFileExists salts s).2 =
       Some (Document (salts (drawn s)) (Tokens []))) /\
  (forall d, file s = Some d -> outcomeAt 0 s = false -> outcomeAt 1 s = true ->
     (_ensureFileExists salts s).1 = Returned tt /\
     file (_ensureFileExists salts s).2 =
       Some (Document (salts (drawn s)) (Tokens []))).
Proof.
  destruct s as [c ct ttl sl f o dr]. unfold outcomeAt. simpl.
  unfold _ensureFileExists, try_catch, fs_access, fs_writeFile, generateSalt,
    nextOutcome, bind, modify, get, ret, throw. simpl.
  split; [|split].
  - intros d -> H. destruct o as [|[] rest]; simpl in *; try discriminate; auto.
  - intros -> H. destruct o as [|o1 [|[] rest]]; simpl in *; try discriminate; auto.
  - intros d -> H0 H1.
    destruct o as [|[] [|[] rest]]; simpl in *; try discriminate; auto.
Qed.

(** X22. [readAll] is read-only on an accessible file: past the cache, when
    the access check succeeds, it returns the records of the document (of a
    bare array as well, without upgrading it) when the read succeeds, the
    empty sequence when it fails, and the file is as before either way. *)
Theorem readAll_reads_without_writing (now : Z) (s : store) (d : document) :
  _isCacheValid now s = false ->
  file s = Some d -> outcomeAt 0 s = true ->
  file (readAll salts now s).2 = Some d /\
  (outcomeAt 1 s = true ->
     (readAll salts now s).1 = Returned (recordsRead (Returned d))) /\
  (outcomeAt 1 s = false -> (readAll salts now s).1 = Returned []).
Proof.
  intros V F H0. rewrite readAll_eq, V.
  destruct s as [c ct ttl sl f o dr]. unfold outcomeAt in *. simpl in *. subst f.
  unfold _ensureFileExists, try_catch, fs_access, fs_readFile,
    nextOutcome, bind, get, ret, throw. simpl.
  destruct o as [|[] [|[] rest]]; simpl in *; try discriminate;
    (split; [reflexivity|split; intros; try discriminate; reflexivity]).
Qed.

Lemma mergeTokens_nil (activeTokens : list (option record))
    (tokenToUpdate : option record) :
  mergeTokens [] activeTokens tokenToUpdate = [].
Proof.
  apply length_zero_iff_nil. now rewrite mergeTokens_length.
Qed.

(** X20. A merge after a read that yields nothing empties the file: when
    the cache has expired and the read inside [readAll] fails, or the text
    of the file is malformed, [mergeActiveTokens] merges into the empty
    sequence and, with the other file calls succeeding, writes a document
    without records over whatever the file held. *)
Theorem mergeActiveTokens_after_failed_read (now : Z) (s : store) (d : document)
    (activeTokens : list (option record)) (tokenToUpdate : option record) :
  _isCacheValid now s = false ->
  file s = Some d ->
  (outcomes s = [true; false] \/ (outcomes s = [] /\ d = Malformed)) ->
  exists s2 salt,
    mergeActiveTokens salts now activeTokens tokenToUpdate s = (Returned tt, s2) /\
    file s2 = Some (Document salt (Tokens [])).
Proof.
  intros V F O.
  assert (R : exists s1, readAll salts now s = (Returned [], s1) /\ outcomes s1 = []).
  { rewrite readAll_eq, V.
    destruct s as [c ct ttl sl f o dr]. simpl in *. subst f.
    destruct O as [->|[-> ->]]; eexists; split; reflexivity. }
  destruct R as (s1 & R & O1).
  rewrite mergeActiveTokens_eq, R, mergeTokens_nil.
  pose proof (writeAll_returns_without_failures salts now (Some []) s1 O1) as W.
  destruct (writeAll salts now (Some []) s1) as [[[]|] s2] eqn:E; [|discriminate].
  apply writeAll_returned in E as (salt & F' & _). eauto.
Qed.

(** X23. [getSalt] throws only when the file cannot be created: with a salt
    in memory it never throws, and otherwise it throws exactly when
    [_ensureFileExists] does; a failing read, a malformed text or a failing
    write of the upgraded document all end in a returned salt. *)
Theorem getSalt_throws_only_on_creation (s : store) :
  (getSalt salts s).1 = Thrown <->
  saltTruthy (_salt s) = None /\
  exists accessOk rest,
    outcomes s = accessOk :: false :: rest /\ (file s = None \/ accessOk = false).
Proof.
  rewrite <- (ensureFileExists_thrown salts).
  unfold getSalt. unfold bind at 1. unfold get at 1.
  destruct (saltTruthy (_salt s)) as [v|]; simpl.
  - split; [discriminate | intros [? _]; discriminate].
  - unfold bind at 1.
    destruct (_ensureFileExists salts s) as [[[]|] s1]; simpl.
    + split; [|intros [_ ?]; discriminate].
      unfold try_catch.
      destruct ((let* parsed := fs_readFile in _) s1) as [[v|] s2]; simpl;
        [discriminate|].
      unfold bind, generateSalt, get, modify, ret. simpl. discriminate.
    + split; auto.
Qed.

Lemma matchIndex_keys (l l' : list record) (target : record) :
  refreshToken <$> l = refreshToken <$> l' ->
  matchIndex l target = matchIndex l' target.
Proof.
  unfold matchIndex. revert l'.
  induction l as [|r l IH]; intros [|r' l'] H; try discriminate; [reflexivity|].
  injection H as Hr Hl. cbn [list_find].
  assert (E : sameRefreshToken target r <-> sameRefreshToken target r').
  { unfold sameRefreshToken. unfold refreshToken in Hr. now rewrite Hr. }
  specialize (IH l' Hl).
  destruct (decide (sameRefreshToken target r)) as [P|P];
    destruct (decide (sameRefreshToken target r')) as [P'|P']; try tauto;
    try reflexivity.
  destruct (list_find _ l) as [[i x]|], (list_find _ l') as [[i' x']|];
    simpl in *; congruence.
Qed.

Lemma applyUpdate_lookup (l : list record) (a : option record) (j : nat) :
  applyUpdate l a !! j = (fun r => patch l j a ∪ r) <$> l !! j.
Proof.
  assert (Z0 : forall o : option record, o = (fun r => ∅ ∪ r) <$> o).
  { intros [r|]; simpl; [|reflexivity]. now rewrite (left_id_L ∅ (∪)). }
  unfold applyUpdate, patch, matchIndex. destruct a as [t|]; [|apply Z0].
  destruct (list_find (sameRefreshToken t) l) as [[i found]|] eqn:F.
  - apply list_find_Some in F as (Hi & _ & _).
    case_decide as D.
    + injection D as ->.
      rewrite list_lookup_insert_eq by (eapply lookup_lt_Some; eauto).
      now rewrite Hi.
    + rewrite list_lookup_insert_ne by (intros ->; now apply D). apply Z0.
  - case_decide as D; [discriminate D | apply Z0].
Qed.

Lemma foldl_applyUpdate_keys (act : list (option record)) (l : list record) :
  refreshToken <$> foldl applyUpdate l act = refreshToken <$> l.
Proof.
  revert l. induction act as [|a act IH]; intros l; [reflexivity|].
  simpl. now rewrite IH, applyUpdate_keys.
Qed.

(** The record at [j] after a pass over the applied records: the patches of
    the pass, the later over the earlier, over the record. *)
Lemma foldl_applyUpdate_lookup (act : list (option record)) (l l0 : list record)
    (j : nat) :
  refreshToken <$> l = refreshToken <$> l0 ->
  foldl applyUpdate l act !! j =
  (fun r => foldl (fun acc a => patch l0 j a ∪ acc) ∅ act ∪ r) <$> l !! j.
Proof.
  revert l. induction act as [|a act IH]; intros l K.
  - simpl. destruct (l !! j); simpl; [|reflexivity]. now rewrite (left_id_L ∅ (∪)).
  - simpl. rewrite IH by (now rewrite applyUpdate_keys).
    rewrite applyUpdate_lookup. destruct (l !! j) as [r|]; simpl; [|reflexivity].
    f_equal. rewrite (right_id_L ∅ (∪)).
    assert (P : patch l j a = patch l0 j a).
    { unfold patch. destruct a as [t|]; [|reflexivity].
      now rewrite (matchIndex_keys l l0 t K). }
    rewrite P. generalize (patch l0 j a). intros p.
    assert (A : forall (ps : list (option record)) (x : record),
              foldl (fun acc a0 => patch l0 j a0 ∪ acc) x ps =
              foldl (fun acc a0 => patch l0 j a0 ∪ acc) ∅ ps ∪ x).
    { induction ps as [|q ps IHps]; intros x; simpl.
      - now rewrite (left_id_L ∅ (∪)).
      - rewrite (IHps (patch l0 j q ∪ x)), (IHps (patch l0 j q ∪ ∅)).
        now rewrite (right_id_L ∅ (∪)), (assoc_L (∪)). }
    now rewrite (A act p), (assoc_L (∪)).
Qed.

(** X21. The merge is idempotent: merging the same active records a second
    time into the result of the merge changes nothing, whichever records
    match and however often a key occurs among the active records. *)
Theorem mergeTokens_idempotent (disk : list record)
    (activeTokens : list (option record)) (tokenToUpdate : option record) :
  mergeTokens (mergeTokens disk activeTokens tokenToUpdate) activeTokens tokenToUpdate
  = mergeTokens disk activeTokens tokenToUpdate.
Proof.
  assert (F : forall l, mergeTokens l activeTokens tokenToUpdate =
            foldl applyUpdate l
              match tokenToUpdate with
              | Some _ => [tokenToUpdate]
              | None => activeTokens
              end).
  { intros l. unfold mergeTokens. now destruct tokenToUpdate. }
  rewrite !F. set (act := match tokenToUpdate with Some _ => _ | None => _ end).
  apply list_eq. intros j.
  rewrite (foldl_applyUpdate_lookup act (foldl applyUpdate disk act) disk j)
    by apply foldl_applyUpdate_keys.
  rewrite (foldl_applyUpdate_lookup act disk disk j) by reflexivity.
  destruct (disk !! j) as [r|]; simpl; [|reflexivity]. f_equal.
  now rewrite (assoc_L (∪)), (idemp_L (∪)).
Qed.

End StoreFurther.

Lemma writeAll_then_readAll_witness :
  let s' := (writeAll oneSalt 10 (Some [recordA]) (freshStore None [])).2 in
  writeAll oneSalt 10 (Some [recordA]) (freshStore None []) = (Returned tt, s') /\
  11 - 10 < _cacheTTL s' /\
  readAll oneSalt 11 s' = (Returned [recordA], s').
Proof.
  intros s'.
  assert (W : writeAll oneSalt 10 (Some [recordA]) (freshStore None [])
              = (Returned tt, s')) by (vm_compute; reflexivity).
  assert (T : 11 - 10 < _cacheTTL s') by (vm_compute; reflexivity).
  split; [exact W|]. split; [exact T|].
  exact (proj1 (writeAll_then_readAll oneSalt 10 (Some [recordA]) _ s' W) 11 T).
Defined.

Lemma readAll_served_from_cache_witness :
  let s := twoRecordStore [] in
  let s1 := (readAll oneSalt 10 s).2 in
  _isCacheValid 10 s = false /\
  readAll oneSalt 10 s = (Returned [recordA; recordB], s1) /\
  4000 - 10 < _cacheTTL s /\
  readAll oneSalt 4000 s1 = (Returned [recordA; recordB], s1).
Proof.
  intros s s1.
  assert (V : _isCacheValid 10 s = false) by reflexivity.
  assert (R : readAll oneSalt 10 s = (Returned [recordA; recordB], s1))
    by (vm_compute; reflexivity).
  assert (T : 4000 - 10 < _cacheTTL s) by (vm_compute; reflexivity).
  split; [exact V|]. split; [exact R|]. split; [exact T|].
  exact (readAll_served_from_cache oneSalt 10 s s1 _ V R 4000 T).
Defined.

Lemma getSalt_keeps_records_witness :
  let s := freshStore (Some (BareArray [recordA; recordB])) [] in
  exists v tokens s',
    getSalt oneSalt s = (Returned v, s') /\
    file s' = Some (Document v tokens) /\
    tokens = Tokens [recordA; recordB].
Proof.
  intros s.
  destruct (getSalt_keeps_records oneSalt s (BareArray [recordA; recordB]))
    as (v & tokens & s' & G & F & _ & _ & B); try reflexivity; [discriminate|].
  exists v, tokens, s'. split; [exact G|]. split; [exact F|].
  now apply B.
Defined.

Lemma ensureFileExists_paths_witness :
  let d := Document "installed-salt" (Tokens [recordA; recordB]) in
  file (_ensureFileExists oneSalt (twoRecordStore [true])).2 = Some d /\
  file (_ensureFileExists oneSalt (twoRecordStore [false; true])).2 =
    Some (Document "3f9c2a7d" (Tokens [])).
Proof.
  intros d. split.
  - apply (proj1 (ensureFileExists_paths oneSalt (twoRecordStore [true])) d);
      reflexivity.
  - apply (proj2 (proj2 (ensureFileExists_paths oneSalt (twoRecordStore [false; true]))) d);
      reflexivity.
Defined.

Lemma readAll_reads_without_writing_witness :
  let s := freshStore (Some (BareArray [recordA])) [] in
  file (readAll oneSalt 10 s).2 = Some (BareArray [recordA]) /\
  (readAll oneSalt 10 s).1 = Returned [recordA].
Proof.
  intros s.
  destruct (readAll_reads_without_writing oneSalt 10 s (BareArray [recordA]))
    as (F & R & _); try reflexivity.
  split; [exact F | now apply R].
Defined.

Lemma mergeActiveTokens_after_failed_read_witness :
  exists s2 salt,
    mergeActiveTokens oneSalt 10 [Some recordA'] None (twoRecordStore [true; false])
      = (Returned tt, s2) /\
    file s2 = Some (Document salt (Tokens [])).
Proof.
  apply (mergeActiveTokens_after_failed_read oneSalt 10 (twoRecordStore [true; false])
           (Document "installed-salt" (Tokens [recordA; recordB])));
    [reflexivity | reflexivity | left; reflexivity].
Defined.
